(** * osquery filesystem layer: a shallow embedding of
      osquery/filesystem/filesystem.cpp

    The development covers the three parts of the source file that decide
    how much of the filesystem may be consumed: the permission validator
    ([safePermissions]), the glob translator and expander
    ([replaceGlobWildcards], [genGlobs], [resolveFilePattern]) and the
    bounded reader ([readFile]).  The POSIX build is modelled (the
    [#ifndef WIN32] branches are the ones taken), so [make_preferred] is the
    identity on path strings.

    Everything the source reaches through the platform layer (the
    filesystem, [PlatformFile], the privilege dropper) is an explicit value:
    a [Filesystem] record of oracles and a [PlatformFile] record that reads
    thread through. *)

From Stdlib Require Import ZArith List String Ascii Strings.Byte Bool Lia.
Import ListNotations.

Local Open Scope Z_scope.

(* ================================================================== *)
(** * Machine integers *)
(* ================================================================== *)

(** [size_t] is 64 bits wide; arithmetic on it wraps. *)
Definition size_t_modulus : Z := 2 ^ 64.

Definition to_size_t (z : Z) : Z := z mod size_t_modulus.

(** [std::string::npos], the all-ones [size_t]. *)
Definition npos : Z := size_t_modulus - 1.

(** [static_cast<off_t>(x)] of a 64-bit unsigned [x]: two's complement
    reinterpretation as a signed 64-bit value. *)
Definition to_off_t (z : Z) : Z := (z + 2 ^ 63) mod 2 ^ 64 - 2 ^ 63.

(* ================================================================== *)
(** * Status and flags *)
(* ================================================================== *)

(** Modelled from the spec: [osquery::Status] of include/osquery/status.h
    is not among the sources; the spec has every operation return an
    explicit success or failure with a human-readable detail.  As the source
    uses it: an [int] code and a message, [ok()] is [getCode() == 0], which
    is also its conversion to [bool]. *)
Record Status : Type := mkStatus {
  getCode : Z;
  getMessage : string
}.

Definition ok (s : Status) : bool := getCode s =? 0.

(** The command line flags declared at the top of the file.  The two read
    ceilings are [uint64] values. *)
Record Flags : Type := mkFlags {
  FLAGS_read_max : Z;
  FLAGS_read_user_max : Z;
  FLAGS_allow_unsafe : bool;
  FLAGS_disable_forensic : bool
}.

(** The defaults given in the [FLAG] declarations. *)
Definition default_flags : Flags :=
  {| FLAGS_read_max := 50 * 1024 * 1024;
     FLAGS_read_user_max := 10 * 1024 * 1024;
     FLAGS_allow_unsafe := false;
     FLAGS_disable_forensic := true |}.

Definition kMaxRecursiveGlobs : Z := 64.

(* ================================================================== *)
(** * [std::string] operations used by the source *)
(* ================================================================== *)

Definition str_size (s : string) : Z := Z.of_nat (String.length s).

(** [s[i]]: a character for [i < size()], the terminating NUL for
    [i == size()], and out of range (undefined in C++) beyond. *)
Definition str_index (s : string) (i : Z) : option ascii :=
  if (0 <=? i) && (i <? str_size s) then String.get (Z.to_nat i) s
  else if i =? str_size s then Some zero
  else None.

(** [s[i]] where the source keeps [i <= size()]. *)
Definition char_at (s : string) (i : Z) : ascii :=
  match str_index s i with
  | Some c => c
  | None => zero
  end.

(** [s.find(c)] as an offset from the start of [s], [None] for [npos]. *)
Fixpoint find_from (c : ascii) (s : string) (i : Z) : option Z :=
  match s with
  | EmptyString => None
  | String d s' => if Ascii.eqb d c then Some i else find_from c s' (i + 1)
  end.

Definition str_find (s : string) (c : ascii) : Z :=
  match find_from c s 0 with
  | Some i => i
  | None => npos
  end.

(** [boost::replace_all(s, from, to)] for one-character [from] and [to]. *)
Fixpoint replace_all (s : string) (from to : ascii) : string :=
  match s with
  | EmptyString => EmptyString
  | String d s' =>
      String (if Ascii.eqb d from then to else d) (replace_all s' from to)
  end.

(** [s.substr(pos, n)] for [pos <= size()]: at most [n] characters from
    [pos] on. *)
Definition substr (s : string) (pos n : Z) : string :=
  String.substring (Z.to_nat pos) (Z.to_nat (Z.min n (str_size s - pos))) s.

(** [s.substr(pos)] for [pos <= size()]: the characters from [pos] to the
    end. *)
Definition substr_from (s : string) (pos : Z) : string :=
  String.substring (Z.to_nat pos) (String.length s - Z.to_nat pos) s.

(** [s.rfind("**")]: the offset of the last occurrence of two adjacent
    stars.  The scan keeps the latest offset at which one starts. *)
Fixpoint rfind_stars_from (s : string) (i : Z) (last : option Z) : option Z :=
  match s with
  | EmptyString => last
  | String d s' =>
      let here :=
        match s' with
        | String e _ =>
            if Ascii.eqb d "*" && Ascii.eqb e "*" then Some i else last
        | EmptyString => last
        end in
      rfind_stars_from s' (i + 1) here
  end.

Definition rfind_stars (s : string) : Z :=
  match rfind_stars_from s 0 None with
  | Some i => i
  | None => npos
  end.

Definition is_separator (c : ascii) : bool :=
  Ascii.eqb c "/" || Ascii.eqb c "\".

(* ================================================================== *)
(** * The platform layer *)
(* ================================================================== *)

(** [boost::system::error_code]: [errc::success] is the value 0. *)
Record ErrorCode : Type := mkErrorCode {
  ec_value : Z;
  ec_message : string
}.

Definition errc_success : Z := 0.

(** The open mode bits of [PlatformFile] that the source names (their
    values are in fileops.h, not among the sources); a mode is the set of
    bits or-ed together. *)
Inductive OpenFlag : Type :=
  | PF_OPEN_EXISTING
  | PF_READ
  | PF_NONBLOCK.

Definition OpenMode : Type := list OpenFlag.

(** What one call of [read] finds at the head of the descriptor: some
    bytes, or a failure (the call returns -1). *)
Inductive ReadEvent : Type :=
  | Chunk (bs : list byte)
  | ReadFails.

(** Modelled from the spec: [PlatformTime] of osquery/filesystem/fileops.h
    is not among the sources; the spec names it as the pair of access and
    modification timestamps of a file. *)
Record PlatformTime : Type := mkPlatformTime {
  atime : Z;
  mtime : Z
}.

(** Modelled from the spec: [PlatformFile] of osquery/filesystem/fileops.h
    is not among the sources.  The spec lists what it offers: open/close,
    byte read, size query, special-file detection, owning-identity queries
    (root, current user), timestamp get/set and the executable and
    writable-by-others queries.  The record holds the answers of those
    queries for one opened file, its timestamps, the clock that stamps an
    access, and the data still to come: [fd_pending] lists what successive
    calls of [read] find. *)
Record PlatformFile : Type := mkPlatformFile {
  isValid : bool;
  fd_size : Z;
  isSpecialFile : bool;
  isOwnerRoot : Status;
  isOwnerCurrentUser : Status;
  isExecutable : Status;
  isNonWritable : Status;
  fd_times : PlatformTime;
  fd_clock : Z;
  fd_pending : list ReadEvent
}.

(** The machine the code runs on, as far as this file consults it.  The
    functions of boost::filesystem and of the platform layer (fileops,
    neither among the sources) are fields, so that every statement holds
    for whatever they answer.
    - [fs_current_path]: [fs::current_path(ec).string()], empty on error;
    - [fs_canonical p]: [fs::canonical(p, ec).string()], empty on error;
    - [fs_is_directory p]: the result of [fs::is_directory(p, ec)] and the
      error code it leaves in [ec];
    - [platformGlob], [platformIsFileAccessible], [platformIsTmpDir]: the
      functions of that name in fileops;
    - [dropToParent]: whether [DropPrivileges::dropToParent(path)] succeeds;
    - [platformOpen p mode]: the [PlatformFile] built from [p] and [mode]. *)
Record Filesystem : Type := mkFilesystem {
  fs_current_path : string;
  fs_canonical : string -> string;
  fs_is_directory : string -> bool * ErrorCode;
  platformGlob : string -> list string;
  platformIsFileAccessible : string -> Status;
  platformIsTmpDir : string -> Status;
  dropToParent : string -> bool;
  platformOpen : string -> OpenMode -> PlatformFile
}.

(** [isDirectory(path)], lines 376-389. *)
Definition isDirectory (fs : Filesystem) (path : string) : Status :=
  let (is_dir, ec) := fs_is_directory fs path in
  if is_dir then mkStatus 0 "OK"
  else if ec_value ec =? errc_success
       then mkStatus 1 ("Path is not a directory: " ++ path)
       else mkStatus (ec_value ec) (ec_message ec).

(* ================================================================== *)
(** * Permission validator *)
(* ================================================================== *)

(** [safePermissions(dir, path, executable)], lines 404-454. *)
Definition safePermissions (flags : Flags) (fs : Filesystem)
    (dir path : string) (executable : bool) : bool :=
  if negb (ok (platformIsFileAccessible fs path)) then false
  else if FLAGS_allow_unsafe flags then true
  else
    let result := platformIsTmpDir fs dir in
    if negb (ok result) && (getCode result <? 0) then false
    else if ok result then false
    else
      let fd := platformOpen fs path [PF_OPEN_EXISTING; PF_READ] in
      if negb (isValid fd) then false
      else
        let result := isDirectory fs path in
        if negb (ok result) && (getCode result <? 0) then false
        else if ok result then false
        else if ok (isOwnerCurrentUser fd) || ok (isOwnerRoot fd) then
          let result := isExecutable fd in
          if executable
             && ((getCode result >? 0) || negb (ok (isNonWritable fd)))
          then false
          else true
        else false.

(* ================================================================== *)
(** * Glob translator *)
(* ================================================================== *)

(** Modelled from the spec: the [GlobLimits] enumeration of
    include/osquery/filesystem.h is not among the sources.  The spec gives
    three independent flags (files, folders, skip canonicalization) and the
    default [ALL] = files + folders; the source tests them with [&], so they
    are distinct bits of a mask. *)
Definition GLOB_FILES : Z := 1.
Definition GLOB_FOLDERS : Z := 2.
Definition GLOB_ALL : Z := Z.lor GLOB_FILES GLOB_FOLDERS.
Definition GLOB_NO_CANON : Z := 4.

(** [limits & flag], read as a condition. *)
Definition has_limit (limits flag : Z) : bool :=
  negb (Z.land limits flag =? 0).

(** [(p / q).string()] of boost::filesystem (version 3, the one of the
    source's time) on POSIX, where [/] is the only directory separator: an
    empty [q] leaves [p] as it is; otherwise a [/] is added when [p] is not
    empty, does not end in one and [q] does not start with one. *)
Definition path_append (p q : string) : string :=
  if str_size q =? 0 then p
  else if Ascii.eqb (char_at q 0) "/" then (p ++ q)%string
  else if (str_size p =? 0)
          || Ascii.eqb (char_at p (str_size p - 1)) "/"
       then (p ++ q)%string
       else (p ++ "/" ++ q)%string.

(** Lines 309-312: SQL wildcards become glob wildcards. *)
Definition replace_sql_wildcards (pattern : string) : string :=
  if negb (str_find pattern "%" =? npos)
  then replace_all pattern "%" "*"
  else pattern.

(** The condition of lines 315-318.  Every index is at most [size()]:
    [pattern[1]] and [pattern[2]] are only read behind [size() > 3]. *)
Definition treated_as_relative (pattern : string) : bool :=
  ((str_size pattern =? 0)
   || ((negb (Ascii.eqb (char_at pattern 0) "/")
        && negb (Ascii.eqb (char_at pattern 0) "\"))
       && ((str_size pattern >? 3)
           && negb (Ascii.eqb (char_at pattern 1) ":")
           && negb (Ascii.eqb (char_at pattern 2) "\")
           && negb (Ascii.eqb (char_at pattern 2) "/"))))
  && negb (Ascii.eqb (char_at pattern 0) "~").

(** Lines 314-321: relative patterns are put under the working directory. *)
Definition anchor_relative (fs : Filesystem) (pattern : string) : string :=
  if treated_as_relative pattern
  then path_append (fs_current_path fs) pattern
  else pattern.

(** Line 323-324: the part of the pattern before the first star. *)
Definition glob_base (pattern : string) : string :=
  substr pattern 0 (str_find pattern "*").

(** Lines 326-344: the base is replaced by its canonical form when that
    exists and differs. *)
Definition canonicalize_base (fs : Filesystem) (pattern : string)
    (limits : Z) : string :=
  let base := glob_base pattern in
  if str_size base >? 0 then
    let canonicalized :=
      if Z.land limits GLOB_NO_CANON =? 0 then fs_canonical fs base
      else base in
    if (str_size canonicalized >? 0)
       && negb (String.eqb canonicalized base)
    then
      let canonicalized :=
        if ok (isDirectory fs canonicalized)
        then (canonicalized ++ "/")%string
        else canonicalized in
      (canonicalized ++ substr_from pattern (str_size base))%string
    else pattern
  else pattern.

(** [replaceGlobWildcards(pattern, limits)], lines 308-345; the result is
    the new value of the [pattern] reference. *)
Definition replaceGlobWildcards (fs : Filesystem) (pattern : string)
    (limits : Z) : string :=
  canonicalize_base fs (anchor_relative fs (replace_sql_wildcards pattern))
    limits.

(* ================================================================== *)
(** * Glob expander *)
(* ================================================================== *)

(** Why a run of the model stops without a value: the bounded loop was
    given too few steps, or a string was indexed out of its range. *)
Inductive Fault : Type :=
  | FuelExhausted
  | IndexOutOfRange.

Definition Run (A : Type) : Type := (Fault + A)%type.

Definition bind {A B : Type} (m : Run A) (k : A -> Run B) : Run B :=
  match m with
  | inl f => inl f
  | inr a => k a
  end.

Notation "x <- m ;; k" := (bind m (fun x => k))
  (at level 61, m at next level, right associativity).

(** The variables of the loop of [genGlobs], with the patterns handed to
    [platformGlob] so far (oldest first). *)
Record GlobState : Type := mkGlobState {
  gs_path : string;
  gs_results : list string;
  gs_expanded : list string
}.

(** The loop of lines 255-271.  [glob_index] is the value before [++]; one
    unit of [fuel] pays for one evaluation of the loop condition. *)
Fixpoint glob_loop (fuel : nat) (fs : Filesystem) (glob_index : Z)
    (st : GlobState) : Run GlobState :=
  match fuel with
  | O => inl FuelExhausted
  | S fuel' =>
      let glob_index := to_size_t (glob_index + 1) in
      if glob_index <? kMaxRecursiveGlobs then
        let path := gs_path st in
        let glob_results := platformGlob fs path in
        let results := (gs_results st ++ glob_results)%list in
        let expanded := (gs_expanded st ++ [path])%list in
        let wild := rfind_stars path in
        if (Z.of_nat (List.length glob_results) =? 0)
           || (wild >? str_size path)
           || (wild <? to_size_t (str_size path - 3))
        then inr (mkGlobState path results expanded)
        else glob_loop fuel' fs glob_index
               (mkGlobState (path ++ "/**")%string results expanded)
      else inr st
  end.

(** The lambda of lines 275-282: whether [found] is to be removed.  The
    index [found.length() - 1] is computed in [size_t]. *)
Definition pruned (limits : Z) (found : string) : Run bool :=
  match str_index found (to_size_t (str_size found - 1)) with
  | None => inl IndexOutOfRange
  | Some c =>
      inr (negb (((Ascii.eqb c "/" || Ascii.eqb c "\")
                  && has_limit limits GLOB_FOLDERS)
                 || ((negb (Ascii.eqb c "/") && negb (Ascii.eqb c "\"))
                     && has_limit limits GLOB_FILES)))
  end.

(** [std::remove_if] followed by [erase], lines 274-283: the elements the
    lambda rejects are dropped, the others keep their order. *)
Fixpoint prune (limits : Z) (results : list string) : Run (list string) :=
  match results with
  | [] => inr []
  | found :: rest =>
      drop <- pruned limits found ;;
      kept <- prune limits rest ;;
      inr (if drop then kept else found :: kept)
  end.

(** The accumulation half of [genGlobs], lines 251-271. *)
Definition genGlobs_expand (fs : Filesystem) (path : string)
    (results : list string) (limits : Z) : Run GlobState :=
  let path := replaceGlobWildcards fs path limits in
  glob_loop (Z.to_nat kMaxRecursiveGlobs) fs 0 (mkGlobState path results []).

(** [genGlobs(path, results, limits)], lines 248-284; the value is the
    final content of the [results] reference. *)
Definition genGlobs (fs : Filesystem) (path : string)
    (results : list string) (limits : Z) : Run (list string) :=
  st <- genGlobs_expand fs path results limits ;;
  prune limits (gs_results st).

(** [resolveFilePattern(fs_path, results, setting)], lines 291-296. *)
Definition resolveFilePattern (fs : Filesystem) (fs_path : string)
    (results : list string) (setting : Z) : Run (Status * list string) :=
  results <- genGlobs fs fs_path results setting ;;
  inr (mkStatus 0 "OK", results).

(* ================================================================== *)
(** * Bounded reader *)
(* ================================================================== *)

Definition nbytes (bs : list byte) : Z := Z.of_nat (List.length bs).

(** Modelled from the spec: [PlatformFile::read(buf, nbyte)] is not among
    the sources (the spec: "byte-range read").  One call takes the head of
    [fd_pending]: of a [Chunk] it transfers at most [nbyte] bytes and leaves
    the rest of that chunk for the next call; it returns the number of bytes
    transferred, 0 when nothing is left, and -1 for [ReadFails].  A call that
    transfers data stamps the access time with the clock. *)
Definition fd_read (f : PlatformFile) (nbyte : Z)
    : list byte * Z * PlatformFile :=
  match fd_pending f with
  | [] => ([], 0, f)
  | ReadFails :: rest =>
      ([], -1,
       mkPlatformFile (isValid f) (fd_size f) (isSpecialFile f)
         (isOwnerRoot f) (isOwnerCurrentUser f) (isExecutable f)
         (isNonWritable f) (fd_times f) (fd_clock f) rest)
  | Chunk bs :: rest =>
      let got := firstn (Z.to_nat nbyte) bs in
      let left := skipn (Z.to_nat nbyte) bs in
      let times :=
        match got with
        | [] => fd_times f
        | _ :: _ => mkPlatformTime (fd_clock f) (mtime (fd_times f))
        end in
      (got, nbytes got,
       mkPlatformFile (isValid f) (fd_size f) (isSpecialFile f)
         (isOwnerRoot f) (isOwnerCurrentUser f) (isExecutable f)
         (isNonWritable f) times (fd_clock f)
         (match left with
          | [] => rest
          | _ :: _ => Chunk left :: rest
          end))
  end.

(** Modelled from the spec: [PlatformFile::getFileTimes] (the spec:
    "timestamp get"), a snapshot of the two timestamps. *)
Definition getFileTimes (f : PlatformFile) : PlatformTime := fd_times f.

(** Modelled from the spec: [PlatformFile::setFileTimes] (the spec:
    "timestamp set"), which stores the two timestamps given. *)
Definition setFileTimes (f : PlatformFile) (times : PlatformTime)
    : PlatformFile :=
  mkPlatformFile (isValid f) (fd_size f) (isSpecialFile f)
    (isOwnerRoot f) (isOwnerCurrentUser f) (isExecutable f)
    (isNonWritable f) times (fd_clock f) (fd_pending f).

(** The constructor of [OpenReadableFile], lines 80-95: [None] is the
    [fd] left at [nullptr] when the privilege drop is refused. *)
Definition OpenReadableFile (fs : Filesystem) (path : string)
    (blocking : bool) : option PlatformFile :=
  if dropToParent fs path then
    let mode := [PF_OPEN_EXISTING; PF_READ] in
    let mode := if negb blocking then (mode ++ [PF_NONBLOCK])%list
                else mode in
    Some (platformOpen fs path mode)
  else None.

(** One call of the [predicate] argument: the buffer and the size passed
    with it. *)
Definition SinkCall : Type := (list byte * Z)%type.

(** How a call of [readFile] ends: it returns a [Status]; the
    [std::string(file_size, 0)] of line 160 throws for a negative
    [file_size]; or the [read] of line 149 writes past the 4096 bytes of
    [part], which C++ leaves undefined. *)
Inductive Outcome : Type :=
  | Returns (s : Status)
  | Throws
  | Undefined.

(** What a call of [readFile] leaves behind: how it ended, the file as the
    call left it ([None] when no descriptor was opened) and the calls made
    to [predicate], oldest first. *)
Record ReadResult : Type := mkReadResult {
  rr_outcome : Outcome;
  rr_file : option PlatformFile;
  rr_sink : list SinkCall
}.

Definition limit_exceeded : Status := mkStatus 1 "File exceeds read limits".

(** Lines 124-128: the ceiling, by ownership of the file. *)
Definition effective_read_max (flags : Flags) (f : PlatformFile) : Z :=
  to_off_t (if ok (isOwnerRoot f)
            then FLAGS_read_max flags
            else Z.min (FLAGS_read_max flags) (FLAGS_read_user_max flags)).

(** Lines 119-122: the size the read is planned with. *)
Definition determined_size (f : PlatformFile) (size : Z) : Z :=
  if isSpecialFile f && (size >? 0)
  then to_off_t size
  else to_off_t (fd_size f).

(** A buffer of [n] NUL bytes whose first bytes were overwritten by [got]. *)
Definition filled (n : Z) (got : list byte) : list byte :=
  (got ++ repeat x00 (Z.to_nat n - List.length got))%list.

(** How the [do ... while] of lines 147-158 ends. *)
Inductive LoopExit : Type :=
  | ExceedsLimit
  | EndOfData
  | Overrun.

(** The [do ... while] loop of lines 147-158.  One unit of [fuel] pays for
    one execution of the body; [total_bytes] stays below [read_max] between
    iterations, so the addition is not wrapped. *)
Fixpoint read_parts (fuel : nat) (read_max block_size : Z)
    (f : PlatformFile) (total_bytes : Z) (sink : list SinkCall)
    : option (LoopExit * PlatformFile * list SinkCall) :=
  match fuel with
  | O => None
  | S fuel' =>
      let '(got, part_bytes, f) := fd_read f block_size in
      if part_bytes >? 0 then
        if part_bytes >? 4096 then Some (Overrun, f, sink)
        else
          let total_bytes := total_bytes + part_bytes in
          if total_bytes >=? read_max then Some (ExceedsLimit, f, sink)
          else read_parts fuel' read_max block_size f total_bytes
                 (sink ++ [(filled 4096 got, part_bytes)])%list
      else Some (EndOfData, f, sink)
  end.

(** The bytes still to come from a descriptor. *)
Fixpoint pending_bytes (evs : list ReadEvent) : nat :=
  match evs with
  | [] => O
  | Chunk bs :: rest => (List.length bs + pending_bytes rest)%nat
  | ReadFails :: rest => pending_bytes rest
  end.

(** Lines 165-169: the end of a read that went through. *)
Definition finish_read (flags : Flags) (preserve_time : bool)
    (times : PlatformTime) (f : PlatformFile) (sink : list SinkCall)
    : ReadResult :=
  let f := if preserve_time && negb (FLAGS_disable_forensic flags)
           then setFileTimes f times
           else f in
  mkReadResult (Returns (mkStatus 0 "OK")) (Some f) sink.

(** [readFile(path, size, block_size, dry_run, preserve_time, predicate,
    blocking)], lines 107-170.  [None] only if the loop ran out of fuel;
    every iteration that loops again has taken at least one byte off the
    descriptor, so [pending_bytes + 1] iterations are enough. *)
Definition readFile (flags : Flags) (fs : Filesystem) (path : string)
    (size block_size : Z) (dry_run preserve_time blocking : bool)
    : option ReadResult :=
  match OpenReadableFile fs path blocking with
  | None =>
      Some (mkReadResult
              (Returns (mkStatus 1 ("Cannot open file for reading: " ++ path)))
              None [])
  | Some f =>
      if negb (isValid f) then
        Some (mkReadResult
                (Returns
                   (mkStatus 1 ("Cannot open file for reading: " ++ path)))
                (Some f) [])
      else
        let file_size := determined_size f size in
        let read_max := effective_read_max flags f in
        if file_size >? read_max then
          Some (mkReadResult (Returns limit_exceeded) (Some f) [])
        else if dry_run then
          Some (mkReadResult (Returns (mkStatus 0 (fs_canonical fs path)))
                  (Some f) [])
        else
          let times := getFileTimes f in
          if file_size =? 0 then
            match read_parts (S (pending_bytes (fd_pending f)))
                    read_max block_size f 0 [] with
            | None => None
            | Some (ExceedsLimit, f, sink) =>
                Some (mkReadResult (Returns limit_exceeded) (Some f) sink)
            | Some (Overrun, f, sink) =>
                Some (mkReadResult Undefined (Some f) sink)
            | Some (EndOfData, f, sink) =>
                Some (finish_read flags preserve_time times f sink)
            end
          else if file_size <? 0 then
            Some (mkReadResult Throws (Some f) [])
          else
            let '(got, _, f) := fd_read f file_size in
            Some (finish_read flags preserve_time times f
                    [(filled file_size got, file_size)])
  end.

(** The lambda of lines 183-189, which appends to [content]. *)
Definition append_content (content : list byte) (call : SinkCall)
    : list byte :=
  let '(buffer, size) := call in
  if nbytes buffer =? size then (content ++ buffer)%list
  else (content ++ firstn (Z.to_nat size) buffer)%list.

(** [readFile(path, content, size, dry_run, preserve_time, blocking)],
    lines 172-191: the outcome and the final [content]. *)
Definition readFile_content (flags : Flags) (fs : Filesystem)
    (path : string) (content : list byte) (size : Z)
    (dry_run preserve_time blocking : bool)
    : option (ReadResult * list byte) :=
  match readFile flags fs path size 4096 dry_run preserve_time blocking with
  | None => None
  | Some r => Some (r, fold_left append_content (rr_sink r) content)
  end.

(** [forensicReadFile(path, content, blocking)], lines 198-202. *)
Definition forensicReadFile (flags : Flags) (fs : Filesystem)
    (path : string) (content : list byte) (blocking : bool)
    : option (ReadResult * list byte) :=
  readFile_content flags fs path content 0 false true blocking.

(* ================================================================== *)
(** * The remaining functions of the file *)
(* ================================================================== *)


(** The bytes handed to [predicate] over a whole call, by the sizes passed
    with the buffers. *)
Fixpoint sink_bytes (sink : list SinkCall) : Z :=
  match sink with
  | [] => 0
  | (_, size) :: rest => size + sink_bytes rest
  end.

(** What the rest of the file asks of boost::filesystem, libc and the
    platform layer (none of them among the sources), again as fields.
    - [fs_exists p]: the result of [fs::exists(p, ec)] and the code left
      in [ec];
    - [platformAccess p mode]: the [int] that [platformAccess] returns, 0
      when access is granted;
    - [path_filename], [path_parent_path]: [fs::path::filename()] and
      [fs::path::parent_path()] as strings;
    - [std_remove p]: the [int] that [std::remove] returns;
    - [getHomeDirectory]: the [boost::optional] home of the caller;
    - [create_directories p]: the [bool] of
      [boost::filesystem::create_directories(p, ec)];
    - [temp_directory_path], [unique_path]: [fs::temp_directory_path(ec)]
      and the [fs::unique_path(model, ec)] drawn at this call. *)
Record Platform : Type := mkPlatform {
  fs_exists : string -> bool * ErrorCode;
  platformAccess : string -> Z -> Z;
  path_filename : string -> string;
  path_parent_path : string -> string;
  std_remove : string -> Z;
  getHomeDirectory : option string;
  create_directories : string -> bool;
  temp_directory_path : string;
  unique_path : string -> string
}.

(** The access modes of unistd.h. *)
Definition R_OK : Z := 4.
Definition W_OK : Z := 2.

(** [pathExists(path)], lines 230-241. *)
Definition pathExists (pl : Platform) (path : string) : Status :=
  if str_size path =? 0 then mkStatus 1 "-1"
  else
    let (found, ec) := fs_exists pl path in
    if negb found || negb (ec_value ec =? errc_success)
    then mkStatus 1 (ec_message ec)
    else mkStatus 0 "1".

(** [isWritable(path)], lines 204-215. *)
Definition isWritable (pl : Platform) (path : string) : Status :=
  let path_exists := pathExists pl path in
  if negb (ok path_exists) then path_exists
  else if platformAccess pl path W_OK =? 0 then mkStatus 0 "OK"
  else mkStatus 1 ("Path is not writable: " ++ path).

(** [isReadable(path)], lines 217-228. *)
Definition isReadable (pl : Platform) (path : string) : Status :=
  let path_exists := pathExists pl path in
  if negb (ok path_exists) then path_exists
  else if platformAccess pl path R_OK =? 0 then mkStatus 0 "OK"
  else mkStatus 1 ("Path is not readable: " ++ path).

(** [remove(path)], lines 243-246. *)
Definition remove (pl : Platform) (path : string) : Status :=
  mkStatus (std_remove pl path) "N/A".

(** [resolveFilePattern(fs_path, results)], lines 286-289. *)
Definition resolveFilePattern_all (fs : Filesystem) (fs_path : string)
    (results : list string) : Run (Status * list string) :=
  resolveFilePattern fs fs_path results GLOB_ALL.

(** [getSystemRoot()], lines 298-306, on POSIX. *)
Definition getSystemRoot : string := "/".

(** [listInAbsoluteDirectory(path, results, limits)], lines 347-360; the
    list is the final content of [results]. *)
Definition listInAbsoluteDirectory (fs : Filesystem) (pl : Platform)
    (path : string) (results : list string) (limits : Z)
    : Run (Status * list string) :=
  if String.eqb (path_filename pl path) "*"
     && negb (ok (pathExists pl (path_parent_path pl path)))
  then inr (mkStatus 1 ("Directory not found: " ++ path_parent_path pl path),
            results)
  else if String.eqb (path_filename pl path) "*"
          && negb (ok (isDirectory fs (path_parent_path pl path)))
  then inr (mkStatus 1
              ("Path not a directory: " ++ path_parent_path pl path),
            results)
  else
    results <- genGlobs fs path results limits ;;
    inr (mkStatus 0 "OK", results).

(** [listFilesInDirectory(path, results, recursive)], lines 362-367. *)
Definition listFilesInDirectory (fs : Filesystem) (pl : Platform)
    (path : string) (results : list string) (recursive : bool)
    : Run (Status * list string) :=
  listInAbsoluteDirectory fs pl
    (path_append path (if recursive then "**" else "*")) results GLOB_FILES.

(** [listDirectoriesInDirectory(path, results, recursive)], lines
    369-374. *)
Definition listDirectoriesInDirectory (fs : Filesystem) (pl : Platform)
    (path : string) (results : list string) (recursive : bool)
    : Run (Status * list string) :=
  listInAbsoluteDirectory fs pl
    (path_append path (if recursive then "**" else "*")) results GLOB_FOLDERS.

(** [osqueryHomeDirectory()], lines 456-479.  The function-local static
    [homedir] is threaded through: the argument is its value on entry, the
    result its value on return, which is also what the call returns. *)
Definition osqueryHomeDirectory (pl : Platform) (homedir : string) : string :=
  if str_size homedir =? 0 then
    let fallback :=
      path_append (temp_directory_path pl) (unique_path pl "osquery%%%%%%%%") in
    match getHomeDirectory pl with
    | Some userdir =>
        if ok (isWritable pl userdir) then
          let osquery_dir := path_append userdir ".osquery" in
          if ok (isWritable pl osquery_dir) || create_directories pl osquery_dir
          then osquery_dir
          else fallback
        else fallback
    | None => fallback
    end
  else homedir.

(** [lsperms(mode)], lines 481-490.  [mode] is an [int]; [>>] on a
    negative [int] is the arithmetic shift, as [Z.shiftr] is. *)
Definition rwx : list ascii :=
  ["0"; "1"; "2"; "3"; "4"; "5"; "6"; "7"]%char.

Definition lsperms (mode : Z) : string :=
  let bits := ""%string in
  let bits :=
    (bits ++ String (nth (Z.to_nat (Z.land (Z.shiftr mode 9) 7)) rwx zero) "")%string in
  let bits :=
    (bits ++ String (nth (Z.to_nat (Z.land (Z.shiftr mode 6) 7)) rwx zero) "")%string in
  let bits :=
    (bits ++ String (nth (Z.to_nat (Z.land (Z.shiftr mode 3) 7)) rwx zero) "")%string in
  let bits :=
    (bits ++ String (nth (Z.to_nat (Z.land (Z.shiftr mode 0) 7)) rwx zero) "")%string in
  bits.

(** The calls [writeTextFile] makes on the platform layer, in order. *)
Inductive WriteFlag : Type :=
  | PF_OPEN_ALWAYS
  | PF_WRITE
  | PF_APPEND.

Inductive PlatformCall : Type :=
  | CallOpen (path : string) (mode : list WriteFlag) (permissions : Z)
  | CallChmod (path : string) (permissions : Z)
  | CallWrite (content : string) (nbyte : Z).

(** What the platform answers to those calls: whether the descriptor
    opened for writing is valid, whether [platformChmod] succeeds, and the
    [ssize_t] that [write] returns. *)
Record WriteAnswers : Type := mkWriteAnswers {
  open_isValid : bool;
  platformChmod : bool;
  write_returns : Z
}.

(** [writeTextFile(path, content, permissions, force_permissions)], lines
    52-76: the status and the platform calls made. *)
Definition writeTextFile (w : WriteAnswers) (path content : string)
    (permissions : Z) (force_permissions : bool)
    : Status * list PlatformCall :=
  let opened := CallOpen path [PF_OPEN_ALWAYS; PF_WRITE; PF_APPEND] permissions in
  if negb (open_isValid w) then
    (mkStatus 1 ("Could not create file: " ++ path), [opened])
  else if negb (platformChmod w) then
    (mkStatus 1 ("Failed to change permissions for file: " ++ path),
     [opened; CallChmod path permissions])
  else
    let calls :=
      [opened; CallChmod path permissions;
       CallWrite content (str_size content)] in
    let bytes := write_returns w in
    if negb (to_size_t bytes =? str_size content) then
      (mkStatus 1 ("Failed to write contents to file: " ++ path), calls)
    else (mkStatus 0 "OK", calls).

(* ================================================================== *)
(** * Vocabulary of the statements *)
(* ================================================================== *)

(** A base is in canonical form when [fs::canonical] gives it back, up to
    the trailing separator that canonicalization drops from the name of a
    directory. *)
Definition base_is_canonical (fs : Filesystem) (base : string) : Prop :=
  fs_canonical fs base = base
  \/ (ok (isDirectory fs (fs_canonical fs base)) = true
      /\ (fs_canonical fs base ++ "/")%string = base).

(** An absolute pattern: it starts with a path separator. *)
Definition is_absolute (pattern : string) : Prop :=
  is_separator (char_at pattern 0) = true.

(** The answers a descriptor gives to the queries of [PlatformFile], apart
    from its timestamps and the data still to come. *)
Definition same_attributes (f g : PlatformFile) : Prop :=
  isValid f = isValid g
  /\ fd_size f = fd_size g
  /\ isSpecialFile f = isSpecialFile g
  /\ isOwnerRoot f = isOwnerRoot g
  /\ isOwnerCurrentUser f = isOwnerCurrentUser g
  /\ isExecutable f = isExecutable g
  /\ isNonWritable f = isNonWritable g.

(** The total length of a sequence of chunks. *)
Fixpoint chunk_total (cs : list (list byte)) : Z :=
  match cs with
  | [] => 0
  | c :: cs' => nbytes c + chunk_total cs'
  end.

(** A chunk that one [read] of [block_size] bytes returns whole. *)
Definition fits (block_size : Z) (c : list byte) : Prop :=
  0 < nbytes c <= block_size.

(** How many leading chunks keep the running total, started at
    [total_bytes], under [read_max]. *)
Fixpoint kept_under (read_max total_bytes : Z) (cs : list (list byte))
    : nat :=
  match cs with
  | [] => O
  | c :: cs' =>
      if total_bytes + nbytes c <? read_max
      then S (kept_under read_max (total_bytes + nbytes c) cs')
      else O
  end.

(** The call of [predicate] that hands over chunk [c] in the streaming
    loop. *)
Definition delivered (c : list byte) : SinkCall := (filled 4096 c, nbytes c).

(** The last character of an entry, where [found.length() - 1] is an index
    of it. *)
Definition last_char (found : string) : option ascii :=
  str_index found (to_size_t (str_size found - 1)).

(** An entry marked as a folder: it ends in a path separator. *)
Definition is_folder_entry (found : string) : bool :=
  match last_char found with
  | Some c => is_separator c
  | None => false
  end.

(** [path] followed by [k] times the suffix that the loop of [genGlobs]
    appends. *)
Fixpoint deepen (path : string) (k : nat) : string :=
  match k with
  | O => path
  | S k' => (deepen path k' ++ "/**")%string
  end.

(** The number a string of octal digits writes. *)
Definition octal_digit (c : ascii) : Z := Z.of_nat (nat_of_ascii c) - 48.

Fixpoint octal_value_from (acc : Z) (s : string) : Z :=
  match s with
  | EmptyString => acc
  | String c s' => octal_value_from (8 * acc + octal_digit c) s'
  end.

Definition octal_value (s : string) : Z := octal_value_from 0 s.

Definition is_octal_digit (c : ascii) : bool :=
  (48 <=? Z.of_nat (nat_of_ascii c)) && (Z.of_nat (nat_of_ascii c) <=? 55).

Fixpoint string_forallb (p : ascii -> bool) (s : string) : bool :=
  match s with
  | EmptyString => true
  | String c s' => p c && string_forallb p s'
  end.

(** The data a sequence of chunks carries. *)
Definition chunk_data (cs : list (list byte)) : list byte := List.concat cs.

(** Whether the kind filter of [genGlobs] keeps an entry: a folder entry
    when folders are asked for, any other entry when files are. *)
Definition kept_by (limits : Z) (found : string) : bool :=
  (is_folder_entry found && has_limit limits GLOB_FOLDERS)
  || (negb (is_folder_entry found) && has_limit limits GLOB_FILES).

(** A string of a size that [std::string] can have: below [npos]. *)
Definition representable (s : string) : Prop := str_size s < npos.

(** Turns the boolean comparisons among the hypotheses into orders. *)
Ltac zbool :=
  repeat match goal with
  | H : (_ >? _) = true |- _ => apply Z.gtb_lt in H
  | H : (_ >? _) = false |- _ => rewrite Z.gtb_ltb in H; apply Z.ltb_ge in H
  | H : (_ >=? _) = true |- _ => apply Z.geb_le in H
  | H : (_ >=? _) = false |- _ => rewrite Z.geb_leb in H; apply Z.leb_gt in H
  | H : (_ <? _) = true |- _ => apply Z.ltb_lt in H
  | H : (_ <? _) = false |- _ => apply Z.ltb_ge in H
  | H : (_ =? _) = true |- _ => apply Z.eqb_eq in H
  | H : (_ =? _) = false |- _ => apply Z.eqb_neq in H
  end.

(* ================================================================== *)
(** * Concrete machines used by the examples *)
(* ================================================================== *)

Definition status_ok : Status := mkStatus 0 "OK".
Definition status_no : Status := mkStatus 1 "no".

(** A valid descriptor with the given size, kind, owner and data. *)
Definition sample_file (size : Z) (special root_owned : bool)
    (pending : list ReadEvent) : PlatformFile :=
  {| isValid := true;
     fd_size := size;
     isSpecialFile := special;
     isOwnerRoot := if root_owned then status_ok else status_no;
     isOwnerCurrentUser := status_ok;
     isExecutable := status_ok;
     isNonWritable := status_ok;
     fd_times := mkPlatformTime 1000 900;
     fd_clock := 2000;
     fd_pending := pending |}.

(** A machine whose working directory is /home/osquery, on which the paths
    of [dirs] are the directories, [canon] canonicalizes, [glob] expands
    and every path opens as [file]. *)
Definition sample_fs (dirs : list string) (canon : string -> string)
    (glob : string -> list string) (file : PlatformFile) : Filesystem :=
  {| fs_current_path := "/home/osquery";
     fs_canonical := canon;
     fs_is_directory := fun p =>
       (existsb (String.eqb p) dirs, mkErrorCode errc_success "Success");
     platformGlob := glob;
     platformIsFileAccessible := fun _ => status_ok;
     platformIsTmpDir := fun _ => status_no;
     dropToParent := fun _ => true;
     platformOpen := fun _ _ => file |}.

Definition no_glob (p : string) : list string := [].

(** Nothing exists: canonicalization fails on every path. *)
Definition canon_fails (p : string) : string := ""%string.

(** Every path is its own canonical form. *)
Definition canon_same (p : string) : string := p.

(** [fs::canonical] on a machine where /etc is a directory without links
    below it: the trailing separator goes. *)
Definition canon_etc (p : string) : string :=
  if String.eqb p "/etc/" then "/etc"%string else p.

(** A directory that contains itself through a link: every expansion
    finds one more level. *)
Definition glob_cycle (p : string) : list string := ["/cycle/loop/"%string].

Definition bytes_abcd : list byte := [x61; x62; x63; x64].

(** A platform on which the paths of [present] exist and every access is
    granted, with a caller whose home is /home/osquery. *)
Definition sample_platform (present : list string) : Platform :=
  {| fs_exists := fun p =>
       (existsb (String.eqb p) present, mkErrorCode errc_success "Success");
     platformAccess := fun _ _ => 0;
     path_filename := fun p =>
       if String.eqb p "/srv/data/*" then "*"%string else "**"%string;
     path_parent_path := fun _ => "/srv/data"%string;
     std_remove := fun _ => 0;
     getHomeDirectory := Some "/home/osquery"%string;
     create_directories := fun _ => true;
     temp_directory_path := "/tmp";
     unique_path := fun _ => "osquery1a2b3c4d"%string |}.

(** The entries of /srv/data: a file and a folder. *)
Definition glob_data (p : string) : list string :=
  if String.eqb p "/srv/data/*"
  then ["/srv/data/a.txt"; "/srv/data/sub/"]%string
  else [].

(* ================================================================== *)
(** * Facts about the string operations *)
(* ================================================================== *)

Lemma str_size_nonneg (s : string) : 0 <= str_size s.
Proof. unfold str_size. lia. Qed.

Lemma str_size_cons (c : ascii) (s : string) :
  str_size (String c s) = str_size s + 1.
Proof. unfold str_size. cbn [String.length]. lia. Qed.

Lemma str_size_empty_iff (s : string) : str_size s = 0 <-> s = ""%string.
Proof.
  split.
  - destruct s as [|c s]; [reflexivity|].
    rewrite str_size_cons. pose proof (str_size_nonneg s). lia.
  - intros ->. reflexivity.
Qed.

Lemma get_in_range (s : string) :
  forall k : nat, (k < String.length s)%nat -> exists c, String.get k s = Some c.
Proof.
  induction s as [|d s IH]; intros k Hk; cbn [String.length] in Hk.
  - lia.
  - destruct k as [|k]; cbn [String.get].
    + now exists d.
    + apply IH. lia.
Qed.

Lemma str_index_in_range (s : string) (i : Z) :
  0 <= i < str_size s -> exists c, str_index s i = Some c.
Proof.
  intros Hi. unfold str_index.
  replace ((0 <=? i) && (i <? str_size s)) with true
    by (symmetry; apply andb_true_iff; split; [apply Z.leb_le|apply Z.ltb_lt]; lia).
  apply get_in_range. unfold str_size in Hi. lia.
Qed.

Lemma char_at_0_cons (c : ascii) (s : string) : char_at (String c s) 0 = c.
Proof.
  unfold char_at, str_index.
  replace ((0 <=? 0) && (0 <? str_size (String c s))) with true.
  - reflexivity.
  - symmetry. apply andb_true_iff. split; [reflexivity|].
    apply Z.ltb_lt. rewrite str_size_cons. pose proof (str_size_nonneg s). lia.
Qed.

(** The index [length() - 1], computed in [size_t], falls inside a string
    exactly when the string is not empty. *)
Lemma last_index_in_range (s : string) :
  s <> ""%string ->
  0 <= to_size_t (str_size s - 1) < str_size s.
Proof.
  intros Hs.
  assert (1 <= str_size s).
  { pose proof (str_size_nonneg s).
    destruct (Z.eq_dec (str_size s) 0) as [E|E]; [|lia].
    apply str_size_empty_iff in E. contradiction. }
  unfold to_size_t, size_t_modulus.
  pose proof (Z.mod_pos_bound (str_size s - 1) (2 ^ 64) ltac:(lia)).
  pose proof (Z.mod_le (str_size s - 1) (2 ^ 64) ltac:(lia) ltac:(lia)).
  lia.
Qed.

Lemma last_index_empty :
  str_index "" (to_size_t (str_size "" - 1)) = None.
Proof. reflexivity. Qed.

Lemma substring_0_length (s : string) :
  forall n : nat, (n <= String.length s)%nat ->
  String.length (String.substring 0 n s) = n.
Proof.
  induction s as [|c s IH]; intros n Hn; cbn [String.length] in Hn.
  - assert (n = O) by lia. subst. reflexivity.
  - destruct n as [|n]; [reflexivity|].
    cbn [String.substring String.length]. rewrite IH; lia.
Qed.

Lemma substring_0_all (s : string) :
  String.substring 0 (String.length s) s = s.
Proof.
  induction s as [|c s IH]; [reflexivity|].
  cbn [String.length String.substring]. now rewrite IH.
Qed.

Lemma substring_split (s : string) :
  forall n : nat, (n <= String.length s)%nat ->
  (String.substring 0 n s
   ++ String.substring n (String.length s - n) s)%string = s.
Proof.
  induction s as [|c s IH]; intros n Hn; cbn [String.length] in Hn.
  - assert (n = O) by lia. subst. reflexivity.
  - destruct n as [|n].
    + rewrite Nat.sub_0_r, substring_0_all. reflexivity.
    + cbn [String.length Nat.sub String.substring String.append].
      f_equal. apply IH. lia.
Qed.

Lemma replace_all_idempotent (s : string) :
  replace_all (replace_all s "%" "*") "%" "*" = replace_all s "%" "*".
Proof.
  induction s as [|c s IH]; [reflexivity|].
  cbn [replace_all]. rewrite IH. f_equal.
  destruct (Ascii.eqb c "%") eqn:E; [reflexivity|]. now rewrite E.
Qed.

Lemma replace_sql_wildcards_idempotent (p : string) :
  replace_sql_wildcards (replace_sql_wildcards p) = replace_sql_wildcards p.
Proof.
  unfold replace_sql_wildcards at 2 3.
  destruct (negb (str_find p "%" =? npos)) eqn:E.
  - unfold replace_sql_wildcards.
    destruct (negb (str_find (replace_all p "%" "*") "%" =? npos));
      [apply replace_all_idempotent|reflexivity].
  - unfold replace_sql_wildcards. now rewrite E.
Qed.

Lemma replace_sql_wildcards_head (p : string) :
  is_separator (char_at p 0) = true ->
  char_at (replace_sql_wildcards p) 0 = char_at p 0.
Proof.
  intros H. unfold replace_sql_wildcards.
  destruct (negb (str_find p "%" =? npos)); [|reflexivity].
  destruct p as [|c s]; [reflexivity|].
  cbn [replace_all]. rewrite !char_at_0_cons in *.
  destruct (Ascii.eqb c "%") eqn:E; [|reflexivity].
  apply Ascii.eqb_eq in E. subst c. discriminate H.
Qed.

(* ================================================================== *)
(** * Glob translator: facts *)
(* ================================================================== *)

Lemma glob_base_length (q : string) :
  (String.length (glob_base q) <= String.length q)%nat
  /\ glob_base q
     = String.substring 0 (String.length (glob_base q)) q.
Proof.
  unfold glob_base, substr.
  set (n := Z.to_nat (Z.min (str_find q "*") (str_size q - 0))).
  assert (Hn : (n <= String.length q)%nat).
  { unfold n, str_size. lia. }
  cbn [Z.to_nat]. rewrite substring_0_length by exact Hn. auto.
Qed.

(** The base and what follows it make up the pattern. *)
Lemma glob_base_split (q : string) :
  (glob_base q ++ substr_from q (str_size (glob_base q)))%string = q.
Proof.
  destruct (glob_base_length q) as [Hle Heq].
  unfold substr_from, str_size. rewrite Nat2Z.id.
  rewrite Heq at 1. apply substring_split. exact Hle.
Qed.

(** Canonicalization leaves a pattern alone when its base is canonical. *)
Lemma canonicalize_base_fixed (fs : Filesystem) (q : string) (limits : Z) :
  base_is_canonical fs (glob_base q) ->
  canonicalize_base fs q limits = q.
Proof.
  intros Hcanon. unfold canonicalize_base.
  destruct (str_size (glob_base q) >? 0); [|reflexivity].
  destruct (Z.land limits GLOB_NO_CANON =? 0).
  - destruct Hcanon as [Hsame|[Hdir Hslash]].
    + rewrite Hsame, String.eqb_refl, andb_false_r. reflexivity.
    + destruct ((str_size (fs_canonical fs (glob_base q)) >? 0)
                && negb (String.eqb (fs_canonical fs (glob_base q))
                           (glob_base q))); [|reflexivity].
      rewrite Hdir, Hslash. apply glob_base_split.
  - rewrite String.eqb_refl, andb_false_r. reflexivity.
Qed.

Lemma absolute_not_relative (q : string) :
  is_absolute q -> treated_as_relative q = false.
Proof.
  unfold is_absolute, is_separator, treated_as_relative. intros H.
  destruct q as [|c s]; [discriminate H|].
  rewrite char_at_0_cons in *.
  replace (str_size (String c s) =? 0) with false.
  - cbn [orb]. apply orb_true_iff in H.
    destruct H as [H|H]; rewrite H; cbn [negb andb];
      rewrite ?andb_false_r; reflexivity.
  - symmetry. apply Z.eqb_neq. rewrite str_size_cons.
    pose proof (str_size_nonneg s). lia.
Qed.

(** On an absolute pattern with a canonical base the translator only
    replaces the SQL wildcards. *)
Lemma translate_canonical_absolute (fs : Filesystem) (p : string)
    (limits : Z) :
  is_absolute p ->
  base_is_canonical fs (glob_base (replace_sql_wildcards p)) ->
  replaceGlobWildcards fs p limits = replace_sql_wildcards p.
Proof.
  intros Habs Hcanon. unfold replaceGlobWildcards, anchor_relative.
  rewrite absolute_not_relative.
  - now apply canonicalize_base_fixed.
  - unfold is_absolute in *. now rewrite replace_sql_wildcards_head.
Qed.

(** The empty pattern is taken for a relative one and becomes the working
    directory, which then goes through canonicalization. *)
Lemma translate_empty (fs : Filesystem) (limits : Z) :
  replaceGlobWildcards fs "" limits
  = canonicalize_base fs (fs_current_path fs) limits.
Proof. reflexivity. Qed.

(** A pattern that passes the test of lines 315-318 is put under the
    working directory. *)
Lemma anchor_relative_prefix (fs : Filesystem) (p : string) :
  treated_as_relative p = true ->
  exists rest, anchor_relative fs p = (fs_current_path fs ++ rest)%string.
Proof.
  intros H. unfold anchor_relative, path_append. rewrite H.
  destruct (str_size p =? 0).
  - exists ""%string. clear. induction (fs_current_path fs) as [|c s IH];
      [reflexivity|]. cbn [String.append]. now rewrite <- IH.
  - destruct (Ascii.eqb (char_at p 0) "/"); [now exists p|].
    destruct ((str_size (fs_current_path fs) =? 0)
              || Ascii.eqb
                   (char_at (fs_current_path fs)
                      (str_size (fs_current_path fs) - 1)) "/");
      [now exists p|now exists ("/" ++ p)%string].
Qed.

(** C5 (the claim fails here). On a machine whose working directory is
    /home/osquery the translation of the empty pattern is that directory,
    not the empty pattern. *)
Lemma empty_pattern_not_passed_through :
  replaceGlobWildcards (sample_fs [] canon_same no_glob
                          (sample_file 0 false false []))
    "" GLOB_ALL
  = "/home/osquery"%string
  /\ "/home/osquery"%string <> ""%string.
Proof. split; [reflexivity|discriminate]. Qed.

(** Canonicalization never empties a pattern. *)
Lemma canonicalize_base_nonempty (fs : Filesystem) (q : string) (limits : Z) :
  q <> ""%string -> canonicalize_base fs q limits <> ""%string.
Proof.
  intros Hq. unfold canonicalize_base.
  destruct (str_size (glob_base q) >? 0); [|exact Hq].
  set (canonicalized :=
         if Z.land limits GLOB_NO_CANON =? 0
         then fs_canonical fs (glob_base q) else glob_base q).
  destruct (str_size canonicalized >? 0) eqn:Hsize; cbn [andb]; [|exact Hq].
  destruct (negb (String.eqb canonicalized (glob_base q))); [|exact Hq].
  apply Z.gtb_lt in Hsize.
  destruct canonicalized as [|c rest]; [cbn in Hsize; lia|].
  destruct (ok (isDirectory fs (String c rest))); cbn [String.append];
    discriminate.
Qed.

(** C5 (amended). The translator does not pass the empty pattern through:
    it replaces it by the current working directory, so that the
    translation is the empty pattern only when the working directory
    itself is empty (it could not be determined); and when the
    pre-wildcard base of the working directory is in canonical form, the
    translation of the empty pattern is exactly the working directory. *)
Theorem empty_pattern_becomes_cwd (fs : Filesystem) (limits : Z) :
  (replaceGlobWildcards fs "" limits = ""%string
   <-> fs_current_path fs = ""%string)
  /\ (base_is_canonical fs (glob_base (fs_current_path fs)) ->
      replaceGlobWildcards fs "" limits = fs_current_path fs).
Proof.
  rewrite translate_empty. split.
  - split.
    + intros Hres.
      destruct (string_dec (fs_current_path fs) "") as [He|Hne];
        [exact He|].
      elim (canonicalize_base_nonempty fs _ limits Hne Hres).
    + intros ->. reflexivity.
  - intros Hcanon. now apply canonicalize_base_fixed.
Qed.

Lemma empty_pattern_becomes_cwd_witness :
  replaceGlobWildcards (sample_fs [] canon_same no_glob
                          (sample_file 0 false false []))
    "" GLOB_ALL
  = "/home/osquery"%string.
Proof.
  apply (proj2 (empty_pattern_becomes_cwd
                  (sample_fs [] canon_same no_glob
                     (sample_file 0 false false []))
                  GLOB_ALL)).
  left. reflexivity.
Defined.

(** C6 (the code misses the claim here). Neither the relative pattern
    ab/% nor the relative pattern tmp starts with a separator or with the
    home marker, yet the test of lines 315-318 does not take them for
    relative: the first has a separator as its third character, the second
    is not longer than three characters.  With nothing to canonicalize
    they come out without the working directory in front. *)
Theorem relative_pattern_not_anchored :
  let fs := sample_fs [] canon_fails no_glob (sample_file 0 false false []) in
  fs_current_path fs = "/home/osquery"%string
  /\ treated_as_relative "ab/*" = false
  /\ replaceGlobWildcards fs "ab/%" GLOB_ALL = "ab/*"%string
  /\ treated_as_relative "tmp" = false
  /\ replaceGlobWildcards fs "tmp" GLOB_ALL = "tmp"%string
  /\ replaceGlobWildcards fs "abc/%" GLOB_ALL = "/home/osquery/abc/*"%string.
Proof. cbv zeta. repeat split; reflexivity. Qed.

(** C7. The translator is idempotent on an absolute pattern whose
    pre-wildcard base is in canonical form: translating the translation
    gives the translation again. *)
Theorem translate_idempotent (fs : Filesystem) (p : string) (limits : Z) :
  is_absolute p ->
  base_is_canonical fs (glob_base (replace_sql_wildcards p)) ->
  replaceGlobWildcards fs (replaceGlobWildcards fs p limits) limits
  = replaceGlobWildcards fs p limits.
Proof.
  intros Habs Hcanon.
  rewrite (translate_canonical_absolute fs p limits Habs Hcanon).
  rewrite translate_canonical_absolute.
  - apply replace_sql_wildcards_idempotent.
  - unfold is_absolute in *. now rewrite replace_sql_wildcards_head.
  - now rewrite replace_sql_wildcards_idempotent.
Qed.

Lemma translate_idempotent_witness :
  let fs := sample_fs ["/etc"%string] canon_etc no_glob
              (sample_file 0 false false []) in
  replaceGlobWildcards fs (replaceGlobWildcards fs "/etc/%.conf" GLOB_ALL)
    GLOB_ALL
  = replaceGlobWildcards fs "/etc/%.conf" GLOB_ALL.
Proof.
  cbv zeta.
  apply (translate_idempotent
           (sample_fs ["/etc"%string] canon_etc no_glob
              (sample_file 0 false false []))
           "/etc/%.conf" GLOB_ALL).
  - reflexivity.
  - right. split; reflexivity.
Defined.

(* ================================================================== *)
(** * Glob expander: facts *)
(* ================================================================== *)

Lemma glob_loop_step (fuel : nat) (fs : Filesystem) (glob_index : Z)
    (st : GlobState) :
  glob_loop (S fuel) fs glob_index st
  = if to_size_t (glob_index + 1) <? kMaxRecursiveGlobs then
      if (Z.of_nat (List.length (platformGlob fs (gs_path st))) =? 0)
         || (rfind_stars (gs_path st) >? str_size (gs_path st))
         || (rfind_stars (gs_path st)
             <? to_size_t (str_size (gs_path st) - 3))
      then inr (mkGlobState (gs_path st)
                  (gs_results st ++ platformGlob fs (gs_path st))
                  (gs_expanded st ++ [gs_path st]))
      else glob_loop fuel fs (to_size_t (glob_index + 1))
             (mkGlobState (gs_path st ++ "/**")%string
                (gs_results st ++ platformGlob fs (gs_path st))
                (gs_expanded st ++ [gs_path st]))
    else inr st.
Proof. reflexivity. Qed.

(** Started with the counter at [glob_index] and fuel for the evaluations
    of the loop condition that remain, the loop returns; it hands at most
    [63 - glob_index] further patterns to [platformGlob], and what it adds
    to the results comes from [platformGlob]. *)
Lemma glob_loop_returns (fs : Filesystem) :
  forall (fuel : nat) (glob_index : Z) (st : GlobState),
  0 <= glob_index < kMaxRecursiveGlobs ->
  kMaxRecursiveGlobs - glob_index <= Z.of_nat fuel ->
  exists st' matches,
    glob_loop fuel fs glob_index st = inr st'
    /\ Z.of_nat (List.length (gs_expanded st'))
       <= Z.of_nat (List.length (gs_expanded st)) + (63 - glob_index)
    /\ gs_results st' = (gs_results st ++ matches)%list
    /\ Forall (fun found => exists p, In found (platformGlob fs p)) matches.
Proof.
  unfold kMaxRecursiveGlobs.
  induction fuel as [|fuel IH]; intros gi st Hgi Hfuel.
  - cbn [Z.of_nat] in Hfuel. lia.
  - rewrite glob_loop_step. unfold kMaxRecursiveGlobs.
    assert (Hwrap : to_size_t (gi + 1) = gi + 1).
    { unfold to_size_t, size_t_modulus. apply Z.mod_small. lia. }
    rewrite Hwrap.
    destruct (gi + 1 <? 64) eqn:Hcond.
    + apply Z.ltb_lt in Hcond.
      assert (Hglob : Forall (fun found => exists p, In found (platformGlob fs p))
                        (platformGlob fs (gs_path st))).
      { apply Forall_forall. intros found Hin. now exists (gs_path st). }
      destruct ((Z.of_nat (List.length (platformGlob fs (gs_path st))) =? 0)
                || (rfind_stars (gs_path st) >? str_size (gs_path st))
                || (rfind_stars (gs_path st)
                    <? to_size_t (str_size (gs_path st) - 3))).
      * eexists. exists (platformGlob fs (gs_path st)).
        split; [reflexivity|]. cbn [gs_expanded gs_results].
        rewrite length_app. cbn [List.length]. repeat split; [lia|exact Hglob].
      * destruct (IH (gi + 1)
                    (mkGlobState (gs_path st ++ "/**")%string
                       (gs_results st ++ platformGlob fs (gs_path st))
                       (gs_expanded st ++ [gs_path st])))
          as (st' & matches & Hrun & Hlen & Hres & Hfrom); [lia|lia|].
        exists st', (platformGlob fs (gs_path st) ++ matches)%list.
        split; [exact Hrun|]. cbn [gs_expanded gs_results] in Hlen, Hres.
        rewrite length_app in Hlen. cbn [List.length] in Hlen.
        repeat split.
        -- lia.
        -- now rewrite Hres, <- app_assoc.
        -- apply Forall_app. now split.
    + apply Z.ltb_ge in Hcond. exists st, []. repeat split.
      * lia.
      * now rewrite app_nil_r.
      * constructor.
Qed.

Lemma pruned_defined (limits : Z) (found : string) :
  found <> ""%string -> exists drop, pruned limits found = inr drop.
Proof.
  intros Hne. unfold pruned.
  destruct (str_index_in_range found _ (last_index_in_range found Hne))
    as [c ->].
  eexists. reflexivity.
Qed.

Lemma pruned_empty (limits : Z) : pruned limits "" = inl IndexOutOfRange.
Proof. reflexivity. Qed.

Lemma prune_defined (limits : Z) (results : list string) :
  Forall (fun found => found <> ""%string) results ->
  exists kept, prune limits results = inr kept.
Proof.
  induction 1 as [|found rest Hne _ [kept IH]]; cbn [prune].
  - now exists [].
  - destruct (pruned_defined limits found Hne) as [drop ->].
    rewrite IH. cbn [bind]. eexists. reflexivity.
Qed.

Lemma prune_out_of_range (limits : Z) (results : list string) :
  In ""%string results -> prune limits results = inl IndexOutOfRange.
Proof.
  induction results as [|found rest IH]; intros Hin; [destruct Hin|].
  cbn [prune].
  destruct (string_dec found "") as [->|Hne]; [reflexivity|].
  destruct (pruned_defined limits found Hne) as [drop ->].
  destruct Hin as [Heq|Hin]; [congruence|].
  rewrite (IH Hin). reflexivity.
Qed.

Lemma nonempty_or_in (results : list string) :
  In ""%string results \/ Forall (fun found => found <> ""%string) results.
Proof.
  induction results as [|found rest [IH|IH]].
  - right. constructor.
  - left. now right.
  - destruct (string_dec found "") as [->|Hne].
    + left. now left.
    + right. now constructor.
Qed.

(** C4. Whatever the pattern and whatever the machine, a directory that
    contains itself included, the expansion loop returns, having handed
    fewer than 64 patterns to [platformGlob]; the call as a whole never
    stops for want of iterations, and when it has a value its status is
    OK. *)
Theorem glob_expansion_bounded (fs : Filesystem) (pattern : string)
    (results : list string) (limits : Z) :
  exists st,
    genGlobs_expand fs pattern results limits = inr st
    /\ (List.length (gs_expanded st) < 64)%nat
    /\ Z.of_nat (List.length (gs_expanded st)) <= kMaxRecursiveGlobs
    /\ resolveFilePattern fs pattern results limits <> inl FuelExhausted
    /\ forall status out,
         resolveFilePattern fs pattern results limits = inr (status, out) ->
         status = mkStatus 0 "OK".
Proof.
  unfold genGlobs_expand.
  destruct (glob_loop_returns fs (Z.to_nat kMaxRecursiveGlobs) 0
              (mkGlobState (replaceGlobWildcards fs pattern limits)
                 results []))
    as (st & matches & Hrun & Hlen & _ & _).
  - unfold kMaxRecursiveGlobs. lia.
  - unfold kMaxRecursiveGlobs. lia.
  - exists st. cbn [gs_expanded List.length] in Hlen.
    unfold kMaxRecursiveGlobs.
    split; [exact Hrun|]. split; [lia|]. split; [lia|].
    unfold resolveFilePattern, genGlobs, genGlobs_expand.
    rewrite Hrun. cbn [bind].
    destruct (nonempty_or_in (gs_results st)) as [Hin|Hall].
    + rewrite (prune_out_of_range limits _ Hin). cbn [bind].
      split; [discriminate|]. intros st' out Heq. discriminate Heq.
    + destruct (prune_defined limits _ Hall) as [kept ->]. cbn [bind].
      split; [discriminate|]. intros st' out Heq. now inversion Heq.
Qed.

(** On a directory that contains itself the loop runs to its bound: 63
    patterns are expanded, the last one 62 levels below the first, and the
    call succeeds with the matches of all of them. *)
Lemma glob_cycle_reaches_bound :
  let fs := sample_fs [] canon_fails glob_cycle (sample_file 0 false false []) in
  (exists st,
     genGlobs_expand fs "/cycle/**" [] GLOB_ALL = inr st
     /\ List.length (gs_expanded st) = 63%nat)
  /\ resolveFilePattern fs "/cycle/**" [] GLOB_ALL
     = inr (mkStatus 0 "OK", repeat "/cycle/loop/"%string 63).
Proof.
  cbv zeta. split.
  - eexists. split; [vm_compute; reflexivity|reflexivity].
  - vm_compute. reflexivity.
Qed.

(** What the expansion leaves in the vector, under the precondition on
    [platformGlob] alone: the caller's entries followed by matches that
    are all indexed inside their range. *)
Lemma accumulated_matches_in_range (fs : Filesystem) (pattern : string)
    (results : list string) (limits : Z) :
  (forall p found, In found (platformGlob fs p) -> found <> ""%string) ->
  exists st matches,
    genGlobs_expand fs pattern results limits = inr st
    /\ gs_results st = (results ++ matches)%list
    /\ Forall (fun found => found <> ""%string) matches.
Proof.
  intros Hglob. unfold genGlobs_expand.
  destruct (glob_loop_returns fs (Z.to_nat kMaxRecursiveGlobs) 0
              (mkGlobState (replaceGlobWildcards fs pattern limits)
                 results []))
    as (st & matches & Hrun & _ & Hres & Hfrom);
    [unfold kMaxRecursiveGlobs; lia|unfold kMaxRecursiveGlobs; lia|].
  exists st, matches. split; [exact Hrun|]. split; [exact Hres|].
  eapply Forall_impl; [|exact Hfrom].
  intros found [p Hin]. now apply (Hglob p).
Qed.

(** Under that precondition the filter leaves the range exactly when the
    vector the caller passed in already held an empty string. *)
Lemma kind_filter_fault_iff (fs : Filesystem) (pattern : string)
    (results : list string) (limits : Z) :
  (forall p found, In found (platformGlob fs p) -> found <> ""%string) ->
  genGlobs fs pattern results limits = inl IndexOutOfRange
  <-> In ""%string results.
Proof.
  intros Hglob.
  destruct (accumulated_matches_in_range fs pattern results limits Hglob)
    as (st & matches & Hrun & Hres & Hne).
  unfold genGlobs. rewrite Hrun. cbn [bind]. rewrite Hres. split.
  - intros Hfault.
    destruct (nonempty_or_in results) as [Hin|Hall]; [exact Hin|].
    destruct (prune_defined limits (results ++ matches)) as [kept Hk].
    + apply Forall_app. now split.
    + congruence.
  - intros Hin. apply prune_out_of_range. apply in_or_app. now left.
Qed.

(** C10 (the claim fails here). Every string that [platformGlob] produces
    on this machine is non-empty, yet the filter indexes out of range: the
    vector that the caller passes in holds an empty string, and the filter
    runs over the whole vector. *)
Lemma kind_filter_leaves_range_on_caller_entry :
  let fs := sample_fs [] canon_fails glob_data (sample_file 0 false false []) in
  (forall p found, In found (platformGlob fs p) -> found <> ""%string)
  /\ str_index "" (to_size_t (str_size "" - 1)) = None
  /\ genGlobs fs "/srv/data/%" [""%string] GLOB_FILES = inl IndexOutOfRange.
Proof.
  cbv zeta. split; [|split; reflexivity].
  intros p found. cbn [platformGlob sample_fs]. unfold glob_data.
  destruct (String.eqb p "/srv/data/*"); cbn [In].
  - intros [<-|[<-|[]]]; discriminate.
  - intros [].
Qed.

(** C10 (amended). When every string that [platformGlob] produces is
    non-empty and the vector the caller passes in holds no empty string,
    the index [found.length() - 1] is inside its range for every element
    the filter visits, so the filter is total: its out-of-range branch is
    not reached and [genGlobs] returns the filtered vector. *)
Theorem kind_filter_in_range (fs : Filesystem) (pattern : string)
    (results : list string) (limits : Z) :
  (forall p found, In found (platformGlob fs p) -> found <> ""%string) ->
  Forall (fun found => found <> ""%string) results ->
  exists st kept,
    genGlobs_expand fs pattern results limits = inr st
    /\ Forall (fun found =>
                 0 <= to_size_t (str_size found - 1) < str_size found
                 /\ exists c,
                      str_index found (to_size_t (str_size found - 1))
                      = Some c)
         (gs_results st)
    /\ prune limits (gs_results st) = inr kept
    /\ genGlobs fs pattern results limits = inr kept.
Proof.
  intros Hglob Hcaller.
  destruct (accumulated_matches_in_range fs pattern results limits Hglob)
    as (st & matches & Hrun & Hres & Hne).
  assert (Hall : Forall (fun found => found <> ""%string) (gs_results st)).
  { rewrite Hres. apply Forall_app. now split. }
  destruct (prune_defined limits _ Hall) as [kept Hkept].
  exists st, kept. split; [exact Hrun|]. split.
  { eapply Forall_impl; [|exact Hall]. intros found Hfound. split.
    - now apply last_index_in_range.
    - apply str_index_in_range. now apply last_index_in_range. }
  split; [exact Hkept|].
  unfold genGlobs. rewrite Hrun. cbn [bind]. exact Hkept.
Qed.

Lemma kind_filter_in_range_witness :
  exists kept,
    genGlobs (sample_fs [] canon_fails glob_cycle
                (sample_file 0 false false []))
      "/cycle/*" ["/var/log/"; "/var/log/syslog"]%string GLOB_FOLDERS
    = inr kept.
Proof.
  destruct (kind_filter_in_range
              (sample_fs [] canon_fails glob_cycle
                 (sample_file 0 false false []))
              "/cycle/*" ["/var/log/"; "/var/log/syslog"]%string GLOB_FOLDERS)
    as (st & kept & _ & _ & _ & Hrun).
  - intros p found [<-|[]]. discriminate.
  - repeat constructor; discriminate.
  - exists kept. exact Hrun.
Defined.

(* ================================================================== *)
(** * Permission validator: facts *)
(* ================================================================== *)

(** With the override set the verdict is the accessibility test alone. *)
Lemma allow_unsafe_overrides (flags : Flags) (fs : Filesystem)
    (dir path : string) (executable : bool) :
  FLAGS_allow_unsafe flags = true ->
  safePermissions flags fs dir path executable
  = ok (platformIsFileAccessible fs path).
Proof.
  intros H. unfold safePermissions. rewrite H.
  now destruct (ok (platformIsFileAccessible fs path)).
Qed.

(** C1 (the claim fails here). With [allow_unsafe] set, the accessible
    directory /opt/modules is given the verdict true. *)
Lemma directory_safe_under_override :
  let flags := mkFlags (50 * 1024 * 1024) (10 * 1024 * 1024) true true in
  let fs := sample_fs ["/opt/modules"%string] canon_same no_glob
              (sample_file 4096 false true []) in
  fst (fs_is_directory fs "/opt/modules") = true
  /\ safePermissions flags fs "/opt" "/opt/modules" false = true.
Proof. cbv zeta. split; reflexivity. Qed.

(** C1 (amended). Unless the [allow_unsafe] override is set, the verdict on
    a path that names a directory is false, whatever the containing
    directory, the ownership and the executable requirement. *)
Theorem directory_never_safe (flags : Flags) (fs : Filesystem)
    (dir path : string) (executable : bool) :
  FLAGS_allow_unsafe flags = false ->
  fst (fs_is_directory fs path) = true ->
  safePermissions flags fs dir path executable = false.
Proof.
  intros Hflag Hdir. unfold safePermissions, isDirectory.
  rewrite Hflag. destruct (fs_is_directory fs path) as [is_dir ec].
  cbn [fst] in Hdir. subst is_dir.
  destruct (negb (ok (platformIsFileAccessible fs path))); [reflexivity|].
  destruct (negb (ok (platformIsTmpDir fs dir))
            && (getCode (platformIsTmpDir fs dir) <? 0)); [reflexivity|].
  destruct (ok (platformIsTmpDir fs dir)); [reflexivity|].
  destruct (negb (isValid (platformOpen fs path [PF_OPEN_EXISTING; PF_READ])));
    reflexivity.
Qed.

Lemma directory_never_safe_witness :
  safePermissions default_flags
    (sample_fs ["/opt/modules"%string] canon_same no_glob
       (sample_file 4096 false true []))
    "/opt" "/opt/modules" true
  = false.
Proof.
  apply directory_never_safe; reflexivity.
Defined.

(* ================================================================== *)
(** * Bounded reader: facts *)
(* ================================================================== *)

Lemma same_attributes_refl (f : PlatformFile) : same_attributes f f.
Proof. unfold same_attributes. repeat split. Qed.

Lemma same_attributes_trans (f g h : PlatformFile) :
  same_attributes f g -> same_attributes g h -> same_attributes f h.
Proof. unfold same_attributes. intuition congruence. Qed.

Lemma setFileTimes_attributes (f : PlatformFile) (times : PlatformTime) :
  same_attributes f (setFileTimes f times)
  /\ fd_times (setFileTimes f times) = times
  /\ fd_pending (setFileTimes f times) = fd_pending f.
Proof. unfold same_attributes. cbn. repeat split. Qed.

(** A read answers no query differently afterwards. *)
Lemma fd_read_attributes (f f' : PlatformFile) (n k : Z) (got : list byte) :
  fd_read f n = (got, k, f') -> same_attributes f f'.
Proof.
  unfold fd_read.
  destruct (fd_pending f) as [|[bs|] rest]; intros H; inversion H; subst;
    unfold same_attributes; cbn; repeat split.
Qed.

(** A read that returns a positive count has taken bytes off the
    descriptor. *)
Lemma fd_read_progress (f f' : PlatformFile) (n k : Z) (got : list byte) :
  fd_read f n = (got, k, f') -> 0 < k ->
  (pending_bytes (fd_pending f') < pending_bytes (fd_pending f))%nat.
Proof.
  unfold fd_read.
  destruct (fd_pending f) as [|[bs|] rest] eqn:Hp; intros H Hk;
    inversion H; subst; clear H; try lia.
  cbn [fd_pending pending_bytes]. unfold nbytes in Hk.
  pose proof (firstn_skipn (Z.to_nat n) bs) as Hsplit.
  apply (f_equal (@List.length byte)) in Hsplit.
  rewrite length_app in Hsplit.
  destruct (skipn (Z.to_nat n) bs) as [|b left];
    cbn [pending_bytes List.length] in *; lia.
Qed.

(** A chunk that fits the request is returned whole. *)
Lemma fd_read_whole (f : PlatformFile) (n : Z) (c : list byte)
    (rest : list ReadEvent) :
  fd_pending f = Chunk c :: rest -> nbytes c <= n ->
  exists f', fd_read f n = (c, nbytes c, f') /\ fd_pending f' = rest.
Proof.
  intros Hp Hn. unfold fd_read. rewrite Hp.
  assert (Hlen : (List.length c <= Z.to_nat n)%nat)
    by (unfold nbytes in Hn; lia).
  rewrite (firstn_all2 _ Hlen), (skipn_all2 _ Hlen).
  eexists. split; reflexivity.
Qed.

Lemma filled_exact (n : Z) (c : list byte) :
  nbytes c = n -> filled n c = c.
Proof.
  intros H. unfold filled, nbytes in *.
  replace (Z.to_nat n - List.length c)%nat with O by lia.
  apply app_nil_r.
Qed.

(** The loop returns when it is given more fuel than there are bytes to
    come. *)
Lemma read_parts_returns (read_max block_size : Z) :
  forall (fuel : nat) (f : PlatformFile) (total_bytes : Z)
         (sink : list SinkCall),
  (pending_bytes (fd_pending f) < fuel)%nat ->
  exists r, read_parts fuel read_max block_size f total_bytes sink = Some r.
Proof.
  induction fuel as [|fuel IH]; intros f total sink Hfuel; [lia|].
  cbn [read_parts].
  destruct (fd_read f block_size) as [[got k] f'] eqn:Hread.
  destruct (k >? 0) eqn:Hk; [|eexists; reflexivity].
  destruct (k >? 4096); [eexists; reflexivity|].
  destruct (total + k >=? read_max); [eexists; reflexivity|].
  apply IH. zbool. pose proof (fd_read_progress _ _ _ _ _ Hread Hk). lia.
Qed.

Lemma read_parts_attributes (read_max block_size : Z) :
  forall (fuel : nat) (f f' : PlatformFile) (total_bytes : Z)
         (sink sink' : list SinkCall) (e : LoopExit),
  read_parts fuel read_max block_size f total_bytes sink
  = Some (e, f', sink') ->
  same_attributes f f'.
Proof.
  induction fuel as [|fuel IH]; intros f f' total sink sink' e H;
    [discriminate H|].
  cbn [read_parts] in H.
  destruct (fd_read f block_size) as [[got k] f1] eqn:Hread.
  pose proof (fd_read_attributes _ _ _ _ _ Hread) as Hattr.
  destruct (k >? 0); [|inversion H; now subst].
  destruct (k >? 4096); [inversion H; now subst|].
  destruct (total + k >=? read_max); [inversion H; now subst|].
  eapply same_attributes_trans; [exact Hattr|]. eapply IH. exact H.
Qed.

(** The single read of lines 160-162, when the size is known, positive
    and within the ceiling. *)
Lemma readFile_single_shot (flags : Flags) (fs : Filesystem) (path : string)
    (size block_size : Z) (preserve_time blocking : bool)
    (f : PlatformFile) :
  OpenReadableFile fs path blocking = Some f ->
  isValid f = true ->
  0 < determined_size f size <= effective_read_max flags f ->
  readFile flags fs path size block_size false preserve_time blocking
  = Some (finish_read flags preserve_time (fd_times f)
            (snd (fd_read f (determined_size f size)))
            [(filled (determined_size f size)
                (fst (fst (fd_read f (determined_size f size)))),
              determined_size f size)]).
Proof.
  intros Hopen Hvalid Hsize. unfold readFile.
  rewrite Hopen, Hvalid. cbn [negb].
  destruct (determined_size f size >? effective_read_max flags f) eqn:E1;
    [zbool; lia|].
  destruct (determined_size f size =? 0) eqn:E2; [zbool; lia|].
  destruct (determined_size f size <? 0) eqn:E3; [zbool; lia|].
  unfold getFileTimes.
  now destruct (fd_read f (determined_size f size)) as [[got k] f'].
Qed.

(** The upfront check of lines 129-133 turns the call down before
    anything is read. *)
Lemma readFile_over_limit (flags : Flags) (fs : Filesystem) (path : string)
    (size block_size : Z) (dry_run preserve_time blocking : bool)
    (f : PlatformFile) :
  OpenReadableFile fs path blocking = Some f ->
  isValid f = true ->
  effective_read_max flags f < determined_size f size ->
  readFile flags fs path size block_size dry_run preserve_time blocking
  = Some (mkReadResult (Returns limit_exceeded) (Some f) []).
Proof.
  intros Hopen Hvalid Hsize. unfold readFile.
  rewrite Hopen, Hvalid. cbn [negb].
  destruct (determined_size f size >? effective_read_max flags f) eqn:E1;
    [reflexivity|zbool; lia].
Qed.

(** Every call of [readFile] ends: the loop never runs out of fuel. *)
Lemma readFile_returns (flags : Flags) (fs : Filesystem) (path : string)
    (size block_size : Z) (dry_run preserve_time blocking : bool) :
  exists r,
    readFile flags fs path size block_size dry_run preserve_time blocking
    = Some r.
Proof.
  unfold readFile.
  destruct (OpenReadableFile fs path blocking) as [f|]; [|eexists; reflexivity].
  destruct (negb (isValid f)); [eexists; reflexivity|].
  destruct (determined_size f size >? effective_read_max flags f);
    [eexists; reflexivity|].
  destruct dry_run; [eexists; reflexivity|].
  destruct (determined_size f size =? 0).
  - destruct (read_parts_returns (effective_read_max flags f) block_size
                (S (pending_bytes (fd_pending f))) f 0 [])
      as [[[e f'] sink] ->]; [lia|].
    destruct e; eexists; reflexivity.
  - destruct (determined_size f size <? 0); [eexists; reflexivity|].
    destruct (fd_read f (determined_size f size)) as [[got k] f'].
    eexists; reflexivity.
Qed.

Lemma chunk_total_nonneg (cs : list (list byte)) : 0 <= chunk_total cs.
Proof.
  induction cs as [|c cs IH]; cbn [chunk_total]; unfold nbytes; lia.
Qed.

Lemma pending_bytes_chunks (block_size : Z) (cs : list (list byte))
    (rest : list ReadEvent) :
  Forall (fits block_size) cs ->
  (List.length cs <= pending_bytes (map Chunk cs ++ rest))%nat.
Proof.
  induction 1 as [|c cs [Hc _] _ IH]; cbn [map app pending_bytes List.length].
  - lia.
  - unfold nbytes in Hc. lia.
Qed.

(** One turn of the loop on a chunk that fits the block size. *)
Lemma read_parts_chunk (read_max block_size : Z) (fuel : nat)
    (f : PlatformFile) (total_bytes : Z) (sink : list SinkCall)
    (c : list byte) (rest : list ReadEvent) :
  block_size <= 4096 ->
  fd_pending f = Chunk c :: rest ->
  fits block_size c ->
  exists f',
    fd_pending f' = rest
    /\ read_parts (S fuel) read_max block_size f total_bytes sink
       = if total_bytes + nbytes c >=? read_max
         then Some (ExceedsLimit, f', sink)
         else read_parts fuel read_max block_size f'
                (total_bytes + nbytes c) (sink ++ [delivered c]).
Proof.
  intros Hblock Hp [Hpos Hfit].
  destruct (fd_read_whole f block_size c rest Hp Hfit) as (f' & Hread & Hp').
  exists f'. split; [exact Hp'|].
  cbn [read_parts]. rewrite Hread. cbv beta iota.
  destruct (nbytes c >? 0) eqn:E1; [|zbool; lia].
  destruct (nbytes c >? 4096) eqn:E2; [zbool; lia|].
  reflexivity.
Qed.

(** A stream whose total reaches the ceiling: the loop stops with the
    limit error, having handed over exactly the leading chunks that kept
    the running total under the ceiling. *)
Lemma read_parts_over (read_max block_size : Z) (rest : list ReadEvent) :
  block_size <= 4096 ->
  forall (cs : list (list byte)) (fuel : nat) (f : PlatformFile)
         (total_bytes : Z) (sink : list SinkCall),
  fd_pending f = (map Chunk cs ++ rest)%list ->
  Forall (fits block_size) cs ->
  cs <> [] ->
  read_max <= total_bytes + chunk_total cs ->
  (List.length cs <= fuel)%nat ->
  exists f',
    read_parts fuel read_max block_size f total_bytes sink
    = Some (ExceedsLimit, f',
            (sink ++ map delivered
                       (firstn (kept_under read_max total_bytes cs) cs))%list).
Proof.
  intros Hblock.
  induction cs as [|c cs IH]; intros fuel f total sink Hp Hfits Hne Hsum Hfuel;
    [congruence|].
  inversion Hfits as [|c' cs' Hc Hcs]; subst.
  destruct fuel as [|fuel]; [cbn [List.length] in Hfuel; lia|].
  cbn [map app] in Hp.
  destruct (read_parts_chunk read_max block_size fuel f total sink c _
              Hblock Hp Hc) as (f' & Hp' & ->).
  cbn [kept_under chunk_total List.length] in *.
  destruct (total + nbytes c >=? read_max) eqn:E;
    rewrite Z.geb_leb in E.
  - apply Z.leb_le in E.
    replace (total + nbytes c <? read_max) with false
      by (symmetry; apply Z.ltb_ge; lia).
    exists f'. cbn [firstn map]. now rewrite app_nil_r.
  - apply Z.leb_gt in E.
    replace (total + nbytes c <? read_max) with true
      by (symmetry; apply Z.ltb_lt; lia).
    destruct (IH fuel f' (total + nbytes c) (sink ++ [delivered c])%list)
      as [f'' ->]; try assumption; try lia.
    + intros ->. cbn [chunk_total] in Hsum. lia.
    + exists f''. cbn [firstn map]. now rewrite <- app_assoc.
Qed.


Lemma kept_under_length (read_max total_bytes : Z) (cs : list (list byte)) :
  (kept_under read_max total_bytes cs <= List.length cs)%nat.
Proof.
  revert total_bytes.
  induction cs as [|c cs IH]; intros total; cbn [kept_under List.length].
  - lia.
  - destruct (total + nbytes c <? read_max); [|lia].
    specialize (IH (total + nbytes c)). lia.
Qed.

Lemma kept_under_negative (read_max : Z) (cs : list (list byte)) :
  read_max <= 0 -> kept_under read_max 0 cs = O.
Proof.
  intros H. destruct cs as [|c cs]; [reflexivity|]. cbn [kept_under].
  replace (0 + nbytes c <? read_max) with false; [reflexivity|].
  symmetry. apply Z.ltb_ge. unfold nbytes. lia.
Qed.

(** C2 (the claim fails here). The ceiling is 4 bytes and the file is a
    regular file of exactly 4 bytes: its determined size is at the ceiling,
    and the call succeeds and delivers the four bytes. *)
Lemma read_at_ceiling_succeeds :
  let flags := mkFlags 4 4 false true in
  let f := sample_file 4 false false [Chunk bytes_abcd] in
  let fs := sample_fs [] canon_same no_glob f in
  determined_size f 0 = 4
  /\ effective_read_max flags f = 4
  /\ exists r,
       readFile flags fs "/var/log/four" 0 4096 false false false = Some r
       /\ rr_outcome r = Returns (mkStatus 0 "OK")
       /\ rr_sink r = [(bytes_abcd, 4)].
Proof.
  cbv zeta. split; [reflexivity|]. split; [reflexivity|].
  eexists. split; [reflexivity|]. split; reflexivity.
Qed.

(** C2 (amended). On the single-shot path (the determined size is known
    and not zero): when the size is at most the effective ceiling the call
    succeeds, and for a file whose next [size] bytes are [content] the sink
    receives exactly [content], in one call; when the size is strictly
    above the ceiling the call fails with the read-limit error, nothing is
    read (the descriptor is as it was opened) and nothing is delivered. *)
Theorem single_shot_read (flags : Flags) (fs : Filesystem) (path : string)
    (size block_size : Z) (preserve_time blocking : bool)
    (f : PlatformFile) :
  OpenReadableFile fs path blocking = Some f ->
  isValid f = true ->
  0 < determined_size f size ->
  (determined_size f size <= effective_read_max flags f ->
   (exists r,
      readFile flags fs path size block_size false preserve_time blocking
      = Some r
      /\ rr_outcome r = Returns (mkStatus 0 "OK"))
   /\ forall content rest,
        fd_pending f = Chunk content :: rest ->
        nbytes content = determined_size f size ->
        exists r f',
          readFile flags fs path size block_size false preserve_time blocking
          = Some r
          /\ rr_outcome r = Returns (mkStatus 0 "OK")
          /\ rr_sink r = [(content, nbytes content)]
          /\ fold_left append_content (rr_sink r) [] = content
          /\ rr_file r = Some f'
          /\ fd_pending f' = rest)
  /\ (effective_read_max flags f < determined_size f size ->
      forall dry_run,
        readFile flags fs path size block_size dry_run preserve_time blocking
        = Some (mkReadResult (Returns limit_exceeded) (Some f) [])).
Proof.
  intros Hopen Hvalid Hpos. split.
  - intros Hle.
    pose proof (readFile_single_shot flags fs path size block_size
                  preserve_time blocking f Hopen Hvalid (conj Hpos Hle))
      as Hrun.
    split; [eexists; split; [exact Hrun|reflexivity]|].
    intros content rest Hp Hlen.
    destruct (fd_read_whole f (determined_size f size) content rest Hp)
      as (f' & Hread & Hp'); [lia|].
    rewrite Hread in Hrun. cbn [fst snd] in Hrun.
    rewrite (filled_exact _ _ Hlen), <- Hlen in Hrun.
    eexists. eexists. split; [exact Hrun|].
    unfold finish_read. cbn [rr_outcome rr_sink rr_file].
    split; [reflexivity|]. split; [reflexivity|]. split.
    + cbn [fold_left append_content]. now rewrite Z.eqb_refl.
    + split; [reflexivity|].
      destruct (preserve_time && negb (FLAGS_disable_forensic flags));
        exact Hp'.
  - intros Hgt dry_run. now apply readFile_over_limit.
Qed.

Lemma single_shot_read_witness :
  let flags := mkFlags 4 4 false true in
  let small := sample_file 4 false false [Chunk bytes_abcd] in
  (exists r f',
     readFile flags (sample_fs [] canon_same no_glob small)
       "/var/log/four" 0 4096 false false false
     = Some r
     /\ rr_outcome r = Returns (mkStatus 0 "OK")
     /\ rr_sink r = [(bytes_abcd, nbytes bytes_abcd)]
     /\ fold_left append_content (rr_sink r) [] = bytes_abcd
     /\ rr_file r = Some f'
     /\ fd_pending f' = []).
Proof.
  cbv zeta.
  apply (proj1 (single_shot_read (mkFlags 4 4 false true)
                  (sample_fs [] canon_same no_glob
                     (sample_file 4 false false [Chunk bytes_abcd]))
                  "/var/log/four" 0 4096 false false
                  (sample_file 4 false false [Chunk bytes_abcd])
                  eq_refl eq_refl eq_refl)).
  - vm_compute. discriminate.
  - reflexivity.
  - reflexivity.
Defined.

(** C3 (the code misses the claim here). The block size is 8192 and the
    source supplies one chunk of 5000 bytes, far above the ceiling of 100
    bytes.  The [read] of line 149 is given the buffer [part] of 4096 bytes
    of line 148 and writes 5000 bytes into it: the call overruns the buffer
    before the test of line 152 is reached, instead of failing with the
    read-limit error. *)
Lemma oversized_block_overruns :
  let flags := mkFlags 100 100 false true in
  let pipe := sample_file 0 true false [Chunk (repeat x61 5000)] in
  determined_size pipe 0 = 0
  /\ effective_read_max flags pipe = 100
  /\ chunk_total [repeat x61 5000] = 5000
  /\ exists r,
       readFile flags (sample_fs [] canon_same no_glob pipe)
         "/run/pipe" 0 8192 false false false
       = Some r
       /\ rr_outcome r = Undefined
       /\ rr_outcome r <> Returns limit_exceeded
       /\ rr_sink r = [].
Proof.
  cbv zeta. split; [reflexivity|]. split; [reflexivity|].
  split; [reflexivity|].
  eexists. split; [vm_compute; reflexivity|].
  split; [reflexivity|]. split; [discriminate|reflexivity].
Qed.

(** X22. On the streaming path (the determined size is zero) with a block
    size of at most 4096, the size of the chunk buffer: when the chunks
    the source supplies add up to more than the effective ceiling, the
    call fails with the read-limit error; the chunks delivered are the
    leading ones that kept the running total under the ceiling, so at most
    one more than those (in fact none more) reaches the sink. *)
Theorem stream_over_ceiling_fails (flags : Flags) (fs : Filesystem)
    (path : string) (size block_size : Z) (preserve_time blocking : bool)
    (f : PlatformFile) (cs : list (list byte)) (rest : list ReadEvent) :
  OpenReadableFile fs path blocking = Some f ->
  isValid f = true ->
  determined_size f size = 0 ->
  block_size <= 4096 ->
  fd_pending f = (map Chunk cs ++ rest)%list ->
  Forall (fits block_size) cs ->
  effective_read_max flags f < chunk_total cs ->
  exists r,
    readFile flags fs path size block_size false preserve_time blocking
    = Some r
    /\ rr_outcome r = Returns limit_exceeded
    /\ rr_sink r
       = map delivered
           (firstn (kept_under (effective_read_max flags f) 0 cs) cs)
    /\ (List.length (rr_sink r)
        <= kept_under (effective_read_max flags f) 0 cs + 1)%nat.
Proof.
  intros Hopen Hvalid Hsize Hblock Hp Hfits Hover.
  assert (Hlen : forall k,
             (List.length (map delivered (firstn k cs)) <= k + 1)%nat).
  { intros k. rewrite length_map, length_firstn. lia. }
  unfold readFile. rewrite Hopen, Hvalid, Hsize. cbn [negb].
  destruct (0 >? effective_read_max flags f) eqn:E.
  - zbool. eexists. split; [reflexivity|]. cbn [rr_outcome rr_sink].
    rewrite kept_under_negative by lia. repeat split. cbn. lia.
  - zbool. cbn [Z.eqb].
    destruct (read_parts_over (effective_read_max flags f) block_size rest
                Hblock cs (S (pending_bytes (fd_pending f))) f 0 [])
      as [f' ->]; try assumption.
    + intros ->. cbn [chunk_total] in Hover. lia.
    + lia.
    + rewrite Hp. pose proof (pending_bytes_chunks block_size cs rest Hfits).
      lia.
    + eexists. split; [reflexivity|]. cbn [rr_outcome rr_sink app].
      split; [reflexivity|]. split; [reflexivity|]. apply Hlen.
Qed.

Lemma stream_over_ceiling_fails_witness :
  let flags := mkFlags 5 5 false true in
  let pipe := sample_file 0 true false
                [Chunk [x61; x62]; Chunk [x63; x64]; Chunk [x65; x66]] in
  exists r,
    readFile flags (sample_fs [] canon_same no_glob pipe)
      "/run/pipe" 0 4096 false false false
    = Some r
    /\ rr_outcome r = Returns limit_exceeded
    /\ rr_sink r = [delivered [x61; x62]; delivered [x63; x64]]
    /\ (List.length (rr_sink r) <= 2 + 1)%nat.
Proof.
  cbv zeta.
  apply (stream_over_ceiling_fails (mkFlags 5 5 false true)
           (sample_fs [] canon_same no_glob
              (sample_file 0 true false
                 [Chunk [x61; x62]; Chunk [x63; x64]; Chunk [x65; x66]]))
           "/run/pipe" 0 4096 false false
           (sample_file 0 true false
              [Chunk [x61; x62]; Chunk [x63; x64]; Chunk [x65; x66]])
           [[x61; x62]; [x63; x64]; [x65; x66]] []).
  - reflexivity.
  - reflexivity.
  - reflexivity.
  - lia.
  - reflexivity.
  - repeat constructor; vm_compute; congruence.
  - reflexivity.
Defined.

(** C8. A call with [preserve_time] set, on a machine where forensic
    preservation is not disabled, always returns; when it returns success,
    the timestamps of the file are those captured before the read, and the
    file answers every query of its descriptor (validity, size, kind,
    ownership, executability, writability) as it did when opened. *)
Theorem forensic_read_restores_times (flags : Flags) (fs : Filesystem)
    (path : string) (size block_size : Z) (dry_run blocking : bool)
    (f : PlatformFile) :
  OpenReadableFile fs path blocking = Some f ->
  FLAGS_disable_forensic flags = false ->
  (exists r,
     readFile flags fs path size block_size dry_run true blocking = Some r)
  /\ forall r st,
       readFile flags fs path size block_size dry_run true blocking = Some r ->
       rr_outcome r = Returns st ->
       ok st = true ->
       exists f',
         rr_file r = Some f'
         /\ fd_times f' = getFileTimes f
         /\ same_attributes f f'.
Proof.
  intros Hopen Hflag. split; [apply readFile_returns|].
  intros r st Hrun Hout Hok. unfold readFile in Hrun. rewrite Hopen in Hrun.
  assert (Hfinish : forall g sink,
             same_attributes f g ->
             Some (finish_read flags true (getFileTimes f) g sink) = Some r ->
             exists f',
               rr_file r = Some f'
               /\ fd_times f' = getFileTimes f /\ same_attributes f f').
  { intros g sink Hattr Heq. inversion Heq; subst r. unfold finish_read.
    rewrite Hflag. cbn [andb negb rr_file].
    eexists. split; [reflexivity|].
    destruct (setFileTimes_attributes g (getFileTimes f)) as (Hs & Ht & _).
    split; [exact Ht|]. eapply same_attributes_trans; eassumption. }
  destruct (negb (isValid f)).
  { inversion Hrun; subst r. cbn in Hout. inversion Hout; subst st.
    discriminate Hok. }
  destruct (determined_size f size >? effective_read_max flags f).
  { inversion Hrun; subst r. cbn in Hout. inversion Hout; subst st.
    discriminate Hok. }
  destruct dry_run.
  { inversion Hrun; subst r. cbn [rr_file]. exists f.
    split; [reflexivity|]. split; [reflexivity|apply same_attributes_refl]. }
  destruct (determined_size f size =? 0).
  - destruct (read_parts (S (pending_bytes (fd_pending f)))
                (effective_read_max flags f) block_size f 0 [])
      as [[[e g] sink]|] eqn:Hloop; [|discriminate Hrun].
    pose proof (read_parts_attributes _ _ _ _ _ _ _ _ _ Hloop) as Hattr.
    destruct e.
    + inversion Hrun; subst r. cbn in Hout. inversion Hout; subst st.
      discriminate Hok.
    + now apply (Hfinish g sink).
    + inversion Hrun; subst r. discriminate Hout.
  - destruct (determined_size f size <? 0).
    { inversion Hrun; subst r. discriminate Hout. }
    destruct (fd_read f (determined_size f size)) as [[got k] g] eqn:Hread.
    eapply Hfinish; [|exact Hrun].
    eapply fd_read_attributes. exact Hread.
Qed.

Lemma forensic_read_restores_times_witness :
  let flags := mkFlags 8 8 false false in
  let file := sample_file 0 false false [Chunk bytes_abcd] in
  exists r f',
    readFile flags (sample_fs [] canon_same no_glob file)
      "/proc/version" 0 4096 false true false
    = Some r
    /\ rr_file r = Some f'
    /\ fd_times f' = mkPlatformTime 1000 900
    /\ same_attributes file f'.
Proof.
  cbv zeta.
  destruct (forensic_read_restores_times (mkFlags 8 8 false false)
              (sample_fs [] canon_same no_glob
                 (sample_file 0 false false [Chunk bytes_abcd]))
              "/proc/version" 0 4096 false false
              (sample_file 0 false false [Chunk bytes_abcd])
              eq_refl eq_refl) as [[r Hrun] Hframe].
  assert (Hout : rr_outcome r = Returns (mkStatus 0 "OK")).
  { vm_compute in Hrun. inversion Hrun. reflexivity. }
  destruct (Hframe r (mkStatus 0 "OK") Hrun Hout eq_refl)
    as (f' & Hfile & Htimes & Hattr).
  exists r, f'. split; [exact Hrun|]. split; [exact Hfile|].
  split; [exact Htimes|exact Hattr].
Defined.

(** Without the restore the same read leaves the access time at the
    clock: the timestamps that C8 speaks of are put back by line 167. *)
Lemma plain_read_moves_atime :
  let flags := mkFlags 8 8 false false in
  let file := sample_file 0 false false [Chunk bytes_abcd] in
  exists r f',
    readFile flags (sample_fs [] canon_same no_glob file)
      "/proc/version" 0 4096 false false false
    = Some r
    /\ rr_outcome r = Returns (mkStatus 0 "OK")
    /\ rr_file r = Some f'
    /\ fd_times f' = mkPlatformTime 2000 900.
Proof.
  cbv zeta. eexists. eexists. split; [vm_compute; reflexivity|].
  repeat split.
Qed.




(* ================================================================== *)
(** * Permission validator: the whole decision *)
(* ================================================================== *)

(** X1. Without the override, the verdict is true exactly when the path is
    accessible, the containing directory is reported as not a temporary
    directory (a positive code: neither a temporary directory nor an error
    below zero), the path opens, it is reported as not a directory in the
    same way, the file belongs to the current user or to root and, when
    execution is required, the executable test gives no positive code and
    the file is not writable by others. *)
Theorem safe_verdict_iff (flags : Flags) (fs : Filesystem)
    (dir path : string) (executable : bool) :
  FLAGS_allow_unsafe flags = false ->
  let fd := platformOpen fs path [PF_OPEN_EXISTING; PF_READ] in
  safePermissions flags fs dir path executable = true
  <-> (ok (platformIsFileAccessible fs path) = true
       /\ 0 < getCode (platformIsTmpDir fs dir)
       /\ isValid fd = true
       /\ 0 < getCode (isDirectory fs path)
       /\ (ok (isOwnerCurrentUser fd) = true \/ ok (isOwnerRoot fd) = true)
       /\ (executable = true ->
           getCode (isExecutable fd) <= 0 /\ ok (isNonWritable fd) = true)).
Proof.
  intros Hflag fd. unfold safePermissions. rewrite Hflag. fold fd.
  unfold ok.
  destruct (getCode (platformIsFileAccessible fs path) =? 0) eqn:Ha;
  destruct (getCode (platformIsTmpDir fs dir) =? 0) eqn:Ht0;
  destruct (getCode (platformIsTmpDir fs dir) <? 0) eqn:Ht1;
  destruct (isValid fd) eqn:Hv;
  destruct (getCode (isDirectory fs path) =? 0) eqn:Hd0;
  destruct (getCode (isDirectory fs path) <? 0) eqn:Hd1;
  destruct (getCode (isOwnerCurrentUser fd) =? 0) eqn:Hu;
  destruct (getCode (isOwnerRoot fd) =? 0) eqn:Hr;
  destruct executable;
  destruct (getCode (isExecutable fd) >? 0) eqn:He;
  destruct (getCode (isNonWritable fd) =? 0) eqn:Hw;
  cbn [negb andb orb]; zbool;
  (split;
   [intros H; try discriminate H;
    (split; [reflexivity|]); (split; [lia|]); (split; [reflexivity|]);
    (split; [lia|]);
    (split; [first [left; reflexivity|right; reflexivity]|]);
    intros E; try discriminate E; (split; [lia|reflexivity])
   |intros (H1 & H2 & H3 & H4 & H5 & H6);
    try discriminate H1; try discriminate H3; try lia;
    try (destruct H5 as [H5|H5]; discriminate H5);
    try (destruct (H6 eq_refl) as [H7 H8]; first [lia|discriminate H8]);
    try reflexivity]).
Qed.

Lemma safe_verdict_iff_witness :
  safePermissions default_flags
    (sample_fs [] canon_same no_glob (sample_file 4096 false true []))
    "/usr/lib" "/usr/lib/module.so" true
  = true.
Proof.
  apply (safe_verdict_iff default_flags
           (sample_fs [] canon_same no_glob (sample_file 4096 false true []))
           "/usr/lib" "/usr/lib/module.so" true eq_refl).
  repeat split; try reflexivity; try (left; reflexivity).
Defined.

(** X2. Asking for an executable can only turn a verdict down: what is
    safe to load as an executable is safe to load without that
    requirement. *)
Theorem executable_requirement_only_restricts (flags : Flags)
    (fs : Filesystem) (dir path : string) :
  safePermissions flags fs dir path true = true ->
  safePermissions flags fs dir path false = true.
Proof.
  unfold safePermissions.
  destruct (negb (ok (platformIsFileAccessible fs path))); [auto|].
  destruct (FLAGS_allow_unsafe flags); [auto|].
  destruct (negb (ok (platformIsTmpDir fs dir))
            && (getCode (platformIsTmpDir fs dir) <? 0)); [auto|].
  destruct (ok (platformIsTmpDir fs dir)); [auto|].
  destruct (negb (isValid (platformOpen fs path [PF_OPEN_EXISTING; PF_READ])));
    [auto|].
  destruct (negb (ok (isDirectory fs path))
            && (getCode (isDirectory fs path) <? 0)); [auto|].
  destruct (ok (isDirectory fs path)); [auto|].
  destruct (ok (isOwnerCurrentUser
                  (platformOpen fs path [PF_OPEN_EXISTING; PF_READ]))
            || ok (isOwnerRoot
                     (platformOpen fs path [PF_OPEN_EXISTING; PF_READ])));
    [|auto].
  cbn [andb]. reflexivity.
Qed.

Lemma executable_requirement_only_restricts_witness :
  safePermissions default_flags
    (sample_fs [] canon_same no_glob (sample_file 4096 false true []))
    "/usr/lib" "/usr/lib/module.so" false
  = true.
Proof.
  apply executable_requirement_only_restricts. reflexivity.
Defined.

(** X3. The override only widens: a path that is safe with [allow_unsafe]
    off is safe with it on, whatever the other flags; and a path that is
    not accessible is safe under neither. *)
Theorem override_only_widens (flags flags' : Flags) (fs : Filesystem)
    (dir path : string) (executable : bool) :
  FLAGS_allow_unsafe flags' = true ->
  (safePermissions flags fs dir path executable = true ->
   safePermissions flags' fs dir path executable = true)
  /\ (ok (platformIsFileAccessible fs path) = false ->
      safePermissions flags fs dir path executable = false
      /\ safePermissions flags' fs dir path executable = false).
Proof.
  intros Hon. split.
  - rewrite (allow_unsafe_overrides flags' fs dir path executable Hon).
    unfold safePermissions.
    destruct (ok (platformIsFileAccessible fs path)); [reflexivity|].
    cbn [negb]. discriminate.
  - intros Hacc. unfold safePermissions. rewrite Hacc. now split.
Qed.

Lemma override_only_widens_witness :
  safePermissions (mkFlags 1 1 true true)
    (sample_fs [] canon_same no_glob (sample_file 4096 false true []))
    "/usr/lib" "/usr/lib/module.so" true
  = true.
Proof.
  apply (proj1 (override_only_widens default_flags (mkFlags 1 1 true true)
                  (sample_fs [] canon_same no_glob
                     (sample_file 4096 false true []))
                  "/usr/lib" "/usr/lib/module.so" true eq_refl)).
  reflexivity.
Defined.

(* ================================================================== *)
(** * Bounded reader: what reaches the sink *)
(* ================================================================== *)

Lemma sink_bytes_app (a b : list SinkCall) :
  sink_bytes (a ++ b) = sink_bytes a + sink_bytes b.
Proof.
  induction a as [|[buf k] a IH]; cbn [app sink_bytes]; [lia|].
  rewrite IH. lia.
Qed.

(** A read never returns more than it was asked for. *)
Lemma fd_read_bound (f f' : PlatformFile) (n k : Z) (got : list byte) :
  fd_read f n = (got, k, f') -> 0 <= n -> k <= n.
Proof.
  unfold fd_read.
  destruct (fd_pending f) as [|[bs|] rest]; intros H Hn; inversion H; subst;
    try lia.
  unfold nbytes. rewrite length_firstn. lia.
Qed.

(** X4. A dry run reads nothing: the call returns a status, makes no call
    to the sink and leaves the descriptor as it was opened.  The status is
    success exactly when the file opens, is valid and its determined size
    is within the ceiling, and then its message is the canonical path. *)
Theorem dry_run_reads_nothing (flags : Flags) (fs : Filesystem)
    (path : string) (size block_size : Z) (preserve_time blocking : bool) :
  exists r st,
    readFile flags fs path size block_size true preserve_time blocking
    = Some r
    /\ rr_outcome r = Returns st
    /\ rr_sink r = []
    /\ rr_file r = OpenReadableFile fs path blocking
    /\ (ok st = true
        <-> exists f,
              OpenReadableFile fs path blocking = Some f
              /\ isValid f = true
              /\ determined_size f size <= effective_read_max flags f)
    /\ (ok st = true -> getMessage st = fs_canonical fs path).
Proof.
  unfold readFile.
  destruct (OpenReadableFile fs path blocking) as [f|].
  - destruct (isValid f) eqn:Hv; cbn [negb].
    + destruct (determined_size f size >? effective_read_max flags f) eqn:E;
        zbool.
      * eexists. eexists. repeat split; try reflexivity; try discriminate.
        intros (g & Hg & _ & Hle). inversion Hg; subst g. lia.
      * eexists. eexists. repeat split; try reflexivity.
        intros _. exists f. repeat split; [exact Hv|lia].
    + eexists. eexists. repeat split; try reflexivity; try discriminate.
      intros (g & Hg & Hvg & _). inversion Hg; subst g. congruence.
  - eexists. eexists. repeat split; try reflexivity; try discriminate.
    intros (g & Hg & _). discriminate Hg.
Qed.

(** The sink of the streaming loop holds fewer bytes than the ceiling, in
    calls of 1 to 4096 bytes each. *)
Lemma read_parts_sink (read_max block_size : Z) :
  forall (fuel : nat) (f f' : PlatformFile) (total_bytes : Z)
         (sink sink' : list SinkCall) (e : LoopExit),
  read_parts fuel read_max block_size f total_bytes sink
  = Some (e, f', sink') ->
  sink_bytes sink = total_bytes ->
  sink = [] \/ total_bytes < read_max ->
  Forall (fun call => 0 < snd call <= 4096) sink ->
  (sink' = [] \/ sink_bytes sink' < read_max)
  /\ Forall (fun call => 0 < snd call <= 4096) sink'.
Proof.
  induction fuel as [|fuel IH]; intros f f' total sink sink' e H Hsum Hinv Hpos;
    [discriminate H|].
  cbn [read_parts] in H.
  destruct (fd_read f block_size) as [[got k] f1] eqn:Hread.
  assert (Hexit : forall x, Some (x, f1, sink) = Some (e, f', sink') ->
            (sink' = [] \/ sink_bytes sink' < read_max)
            /\ Forall (fun call => 0 < snd call <= 4096) sink').
  { intros x Hx. inversion Hx; subst. split; [|exact Hpos].
    destruct Hinv; [now left|right; lia]. }
  destruct (k >? 0) eqn:Hk; [|now apply (Hexit EndOfData)].
  destruct (k >? 4096) eqn:Hbig; [now apply (Hexit Overrun)|].
  destruct (total + k >=? read_max) eqn:Hlim; [now apply (Hexit ExceedsLimit)|].
  zbool. eapply IH; [exact H| | |].
  - rewrite sink_bytes_app. cbn [sink_bytes]. lia.
  - right. lia.
  - apply Forall_app. split; [exact Hpos|]. constructor; [|constructor].
    cbn [snd]. lia.
Qed.

(** X5. Whatever the file supplies, the sizes passed to the sink over one
    call add up to at most the effective ceiling (to less than it on the
    streaming path), and every single call passes a positive size. *)
Theorem sink_within_ceiling (flags : Flags) (fs : Filesystem) (path : string)
    (size block_size : Z) (dry_run preserve_time blocking : bool)
    (f : PlatformFile) (r : ReadResult) :
  OpenReadableFile fs path blocking = Some f ->
  readFile flags fs path size block_size dry_run preserve_time blocking
  = Some r ->
  (rr_sink r = [] \/ sink_bytes (rr_sink r) <= effective_read_max flags f)
  /\ Forall (fun call => 0 < snd call) (rr_sink r).
Proof.
  intros Hopen Hrun. unfold readFile in Hrun. rewrite Hopen in Hrun.
  destruct (negb (isValid f));
    [inversion Hrun; subst r; split; [now left|constructor]|].
  destruct (determined_size f size >? effective_read_max flags f) eqn:E;
    [inversion Hrun; subst r; split; [now left|constructor]|].
  destruct dry_run;
    [inversion Hrun; subst r; split; [now left|constructor]|].
  destruct (determined_size f size =? 0) eqn:E0.
  - destruct (read_parts (S (pending_bytes (fd_pending f)))
                (effective_read_max flags f) block_size f 0 [])
      as [[[e g] sink]|] eqn:Hloop; [|discriminate Hrun].
    destruct (read_parts_sink _ _ _ _ _ _ _ _ _ Hloop eq_refl
                (or_introl eq_refl) (Forall_nil _)) as [Hsum Hpos].
    assert (Hgoal : (sink = [] \/ sink_bytes sink
                                  <= effective_read_max flags f)
                    /\ Forall (fun call => 0 < snd call) sink).
    { split; [destruct Hsum; [now left|right; lia]|].
      eapply Forall_impl; [|exact Hpos]. cbn beta. intros call Hc. lia. }
    destruct e; inversion Hrun; subst r; exact Hgoal.
  - destruct (determined_size f size <? 0) eqn:Eneg;
      [inversion Hrun; subst r; split; [now left|constructor]|].
    destruct (fd_read f (determined_size f size)) as [[got k] g].
    inversion Hrun; subst r. cbn [finish_read rr_sink sink_bytes]. zbool.
    split; [right; lia|]. constructor; [cbn [snd]; lia|constructor].
Qed.

Lemma sink_within_ceiling_witness :
  let flags := mkFlags 5 5 false true in
  let pipe := sample_file 0 true false
                [Chunk [x61; x62]; Chunk [x63; x64]; Chunk [x65; x66]] in
  exists r,
    readFile flags (sample_fs [] canon_same no_glob pipe)
      "/run/pipe" 0 4096 false false false = Some r
    /\ (rr_sink r = [] \/ sink_bytes (rr_sink r) <= 5)
    /\ Forall (fun call => 0 < snd call) (rr_sink r).
Proof.
  cbv zeta.
  destruct (readFile_returns (mkFlags 5 5 false true)
              (sample_fs [] canon_same no_glob
                 (sample_file 0 true false
                    [Chunk [x61; x62]; Chunk [x63; x64]; Chunk [x65; x66]]))
              "/run/pipe" 0 4096 false false false) as [r Hrun].
  exists r. split; [exact Hrun|].
  exact (sink_within_ceiling (mkFlags 5 5 false true)
           (sample_fs [] canon_same no_glob
              (sample_file 0 true false
                 [Chunk [x61; x62]; Chunk [x63; x64]; Chunk [x65; x66]]))
           "/run/pipe" 0 4096 false false false
           (sample_file 0 true false
              [Chunk [x61; x62]; Chunk [x63; x64]; Chunk [x65; x66]])
           r eq_refl Hrun).
Defined.

(** With a block size of at most 4096 the loop never leaves its buffer. *)
Lemma read_parts_no_overrun (read_max block_size : Z) :
  block_size <= 4096 ->
  forall (fuel : nat) (f f' : PlatformFile) (total_bytes : Z)
         (sink sink' : list SinkCall) (e : LoopExit),
  read_parts fuel read_max block_size f total_bytes sink
  = Some (e, f', sink') ->
  e <> Overrun.
Proof.
  intros Hblock.
  induction fuel as [|fuel IH]; intros f f' total sink sink' e H;
    [discriminate H|].
  cbn [read_parts] in H.
  destruct (fd_read f block_size) as [[got k] f1] eqn:Hread.
  destruct (k >? 0) eqn:Hk; [|inversion H; discriminate].
  destruct (k >? 4096) eqn:Hbig.
  - zbool. exfalso.
    destruct (Z.le_gt_cases 0 block_size) as [Hn|Hn].
    + pose proof (fd_read_bound _ _ _ _ _ Hread Hn). lia.
    + revert Hread. unfold fd_read.
      destruct (fd_pending f) as [|[bs|] rest]; intros Hread;
        inversion Hread; subst; try lia.
      replace (Z.to_nat block_size) with O in Hk by lia.
      cbn in Hk. lia.
  - destruct (total + k >=? read_max); [inversion H; discriminate|].
    eapply IH. exact H.
Qed.

(** X6. The content wrappers read in blocks of 4096 bytes, the size of the
    buffer: a call of [readFile] with a block size of at most 4096, and so
    every call of the content wrapper, returns or throws but never
    writes past the buffer. *)
Theorem content_read_never_overruns (flags : Flags) (fs : Filesystem)
    (path : string) (content : list byte) (size : Z)
    (dry_run preserve_time blocking : bool) :
  (forall block_size r,
     block_size <= 4096 ->
     readFile flags fs path size block_size dry_run preserve_time blocking
     = Some r ->
     rr_outcome r <> Undefined)
  /\ exists r content',
       readFile_content flags fs path content size dry_run preserve_time
         blocking
       = Some (r, content')
       /\ rr_outcome r <> Undefined.
Proof.
  assert (Hgen : forall block_size r,
             block_size <= 4096 ->
             readFile flags fs path size block_size dry_run preserve_time
               blocking = Some r ->
             rr_outcome r <> Undefined).
  { intros block_size r Hblock Hrun. unfold readFile in Hrun.
    destruct (OpenReadableFile fs path blocking) as [f|];
      [|inversion Hrun; discriminate].
    destruct (negb (isValid f)); [inversion Hrun; discriminate|].
    destruct (determined_size f size >? effective_read_max flags f);
      [inversion Hrun; discriminate|].
    destruct dry_run; [inversion Hrun; discriminate|].
    destruct (determined_size f size =? 0).
    - destruct (read_parts (S (pending_bytes (fd_pending f)))
                  (effective_read_max flags f) block_size f 0 [])
        as [[[e g] sink]|] eqn:Hloop; [|discriminate Hrun].
      pose proof (read_parts_no_overrun _ _ Hblock _ _ _ _ _ _ _ Hloop).
      destruct e; inversion Hrun; try discriminate. congruence.
    - destruct (determined_size f size <? 0); [inversion Hrun; discriminate|].
      destruct (fd_read f (determined_size f size)) as [[got k] g].
      inversion Hrun. discriminate. }
  split; [exact Hgen|].
  unfold readFile_content.
  destruct (readFile_returns flags fs path size 4096 dry_run preserve_time
              blocking) as [r Hrun].
  rewrite Hrun. eexists. eexists. split; [reflexivity|].
  apply (Hgen 4096 r); [lia|exact Hrun].
Qed.

(** X7. With forensic preservation disabled, as it is by default, asking
    for [preserve_time] changes nothing: the call behaves as without it,
    so [forensicReadFile] under the default flags is a plain read. *)
Theorem preserve_time_needs_forensic (flags : Flags) (fs : Filesystem)
    (path : string) (size block_size : Z) (dry_run blocking : bool) :
  FLAGS_disable_forensic flags = true ->
  readFile flags fs path size block_size dry_run true blocking
  = readFile flags fs path size block_size dry_run false blocking.
Proof.
  intros Hflag. unfold readFile, finish_read. rewrite Hflag.
  cbn [negb andb]. reflexivity.
Qed.

Lemma preserve_time_needs_forensic_witness :
  let fs := sample_fs [] canon_same no_glob
              (sample_file 0 false false [Chunk bytes_abcd]) in
  forensicReadFile default_flags fs "/proc/version" [] false
  = readFile_content default_flags fs "/proc/version" [] 0 false false false.
Proof.
  cbv zeta. unfold forensicReadFile, readFile_content.
  rewrite (preserve_time_needs_forensic default_flags
             (sample_fs [] canon_same no_glob
                (sample_file 0 false false [Chunk bytes_abcd]))
             "/proc/version" 0 4096 false false eq_refl).
  reflexivity.
Defined.

(** The lambda of the content wrapper takes exactly the chunk out of the
    4096-byte buffer it is handed. *)
Lemma append_delivered (content c : list byte) :
  fits 4096 c -> append_content content (delivered c) = (content ++ c)%list.
Proof.
  intros [_ Hfit]. unfold append_content, delivered, filled, nbytes in *.
  destruct (Z.of_nat
              (List.length
                 (c ++ repeat x00 (Z.to_nat 4096 - List.length c)))
            =? Z.of_nat (List.length c)) eqn:E.
  - apply Z.eqb_eq in E. rewrite length_app, repeat_length in E.
    replace (Z.to_nat 4096 - List.length c)%nat with O by lia.
    cbn [repeat]. now rewrite app_nil_r.
  - rewrite Nat2Z.id, firstn_app, firstn_all, Nat.sub_diag.
    cbn [firstn]. now rewrite app_nil_r.
Qed.

Lemma append_all_delivered (cs : list (list byte)) :
  Forall (fits 4096) cs ->
  forall content,
  fold_left append_content (map delivered cs) content
  = (content ++ chunk_data cs)%list.
Proof.
  unfold chunk_data.
  induction 1 as [|c cs Hc _ IH]; intros content; cbn [map fold_left concat].
  - now rewrite app_nil_r.
  - rewrite (append_delivered content c Hc), IH. now rewrite <- app_assoc.
Qed.

(** A stream that stays under the ceiling and then ends, by running dry or
    by a failing read: the loop hands over every chunk and stops at the
    end of the data. *)
Lemma read_parts_all (read_max block_size : Z) (rest : list ReadEvent) :
  block_size <= 4096 ->
  rest = [] \/ (exists tl, rest = ReadFails :: tl) ->
  forall (cs : list (list byte)) (fuel : nat) (f : PlatformFile)
         (total_bytes : Z) (sink : list SinkCall),
  fd_pending f = (map Chunk cs ++ rest)%list ->
  Forall (fits block_size) cs ->
  total_bytes + chunk_total cs < read_max ->
  (List.length cs < fuel)%nat ->
  exists f',
    read_parts fuel read_max block_size f total_bytes sink
    = Some (EndOfData, f', (sink ++ map delivered cs)%list).
Proof.
  intros Hblock Hrest.
  induction cs as [|c cs IH]; intros fuel f total sink Hp Hfits Hsum Hfuel;
    (destruct fuel as [|fuel]; [cbn [List.length] in Hfuel; lia|]);
    cbn [map app chunk_total List.length] in *.
  - cbn [read_parts]. unfold fd_read. rewrite Hp.
    destruct Hrest as [->|[tl ->]]; cbn; eexists; now rewrite app_nil_r.
  - inversion Hfits as [|c' cs' Hc Hcs]; subst.
    destruct (read_parts_chunk read_max block_size fuel f total sink c _
                Hblock Hp Hc) as (f' & Hp' & ->).
    pose proof (chunk_total_nonneg cs).
    replace (total + nbytes c >=? read_max) with false
      by (symmetry; rewrite Z.geb_leb; apply Z.leb_gt; lia).
    destruct (IH fuel f' (total + nbytes c) (sink ++ [delivered c])%list)
      as [f'' ->]; try assumption; try lia.
    exists f''. now rewrite <- app_assoc.
Qed.

Lemma pending_bytes_app (a b : list ReadEvent) :
  pending_bytes (a ++ b) = (pending_bytes a + pending_bytes b)%nat.
Proof.
  induction a as [|[bs|] a IH]; cbn [app pending_bytes]; lia.
Qed.

(** The content wrapper on a stream that stays under the ceiling. *)
Lemma readFile_content_stream (flags : Flags) (fs : Filesystem)
    (path : string) (content : list byte) (size : Z)
    (preserve_time blocking : bool) (f : PlatformFile)
    (cs : list (list byte)) (rest : list ReadEvent) :
  OpenReadableFile fs path blocking = Some f ->
  isValid f = true ->
  determined_size f size = 0 ->
  fd_pending f = (map Chunk cs ++ rest)%list ->
  rest = [] \/ (exists tl, rest = ReadFails :: tl) ->
  Forall (fits 4096) cs ->
  chunk_total cs < effective_read_max flags f ->
  exists r,
    readFile_content flags fs path content size false preserve_time blocking
    = Some (r, (content ++ chunk_data cs)%list)
    /\ rr_outcome r = Returns (mkStatus 0 "OK").
Proof.
  intros Hopen Hvalid Hsize Hp Hrest Hfits Hsum.
  unfold readFile_content, readFile. rewrite Hopen, Hvalid, Hsize.
  cbn [negb]. pose proof (chunk_total_nonneg cs).
  destruct (0 >? effective_read_max flags f) eqn:E; [zbool; lia|].
  cbn [Z.eqb].
  destruct (read_parts_all (effective_read_max flags f) 4096 rest
              ltac:(lia) Hrest cs (S (pending_bytes (fd_pending f))) f 0 [])
    as [f' ->]; try assumption.
  - rewrite Hp. pose proof (pending_bytes_chunks 4096 cs rest Hfits). lia.
  - cbn [app]. unfold finish_read. cbn [rr_sink rr_outcome].
    rewrite (append_all_delivered cs Hfits content).
    eexists. split; reflexivity.
Qed.

(** X8. A file streamed in chunks whose total stays under the ceiling is
    read whole: the call succeeds and the content wrapper appends to
    [content] exactly the bytes of the chunks, in order, without the NUL
    padding of the buffers. *)
Theorem stream_under_ceiling_delivers_all (flags : Flags) (fs : Filesystem)
    (path : string) (content : list byte) (size : Z)
    (preserve_time blocking : bool) (f : PlatformFile)
    (cs : list (list byte)) :
  OpenReadableFile fs path blocking = Some f ->
  isValid f = true ->
  determined_size f size = 0 ->
  fd_pending f = map Chunk cs ->
  Forall (fits 4096) cs ->
  chunk_total cs < effective_read_max flags f ->
  exists r,
    readFile_content flags fs path content size false preserve_time blocking
    = Some (r, (content ++ chunk_data cs)%list)
    /\ rr_outcome r = Returns (mkStatus 0 "OK").
Proof.
  intros Hopen Hvalid Hsize Hp Hfits Hsum.
  apply (readFile_content_stream flags fs path content size preserve_time
           blocking f cs []); try assumption.
  - now rewrite app_nil_r.
  - now left.
Qed.

Lemma stream_under_ceiling_delivers_all_witness :
  let flags := mkFlags 8 8 false true in
  let file := sample_file 0 false false [Chunk [x61; x62]; Chunk [x63; x64]] in
  exists r,
    readFile_content flags (sample_fs [] canon_same no_glob file)
      "/proc/version" [x3e] 0 false false false
    = Some (r, [x3e; x61; x62; x63; x64])
    /\ rr_outcome r = Returns (mkStatus 0 "OK").
Proof.
  cbv zeta.
  apply (stream_under_ceiling_delivers_all (mkFlags 8 8 false true)
           (sample_fs [] canon_same no_glob
              (sample_file 0 false false [Chunk [x61; x62]; Chunk [x63; x64]]))
           "/proc/version" [x3e] 0 false false
           (sample_file 0 false false [Chunk [x61; x62]; Chunk [x63; x64]])
           [[x61; x62]; [x63; x64]]).
  - reflexivity.
  - reflexivity.
  - reflexivity.
  - reflexivity.
  - repeat constructor; vm_compute; congruence.
  - reflexivity.
Defined.



(** A chunk returned whole stamps the access time and leaves the clock. *)
Lemma fd_read_whole_times (f : PlatformFile) (n : Z) (c : list byte)
    (rest : list ReadEvent) :
  fd_pending f = Chunk c :: rest -> fits n c ->
  exists f',
    fd_read f n = (c, nbytes c, f')
    /\ fd_pending f' = rest
    /\ fd_times f' = mkPlatformTime (fd_clock f) (mtime (fd_times f))
    /\ fd_clock f' = fd_clock f.
Proof.
  intros Hp [Hpos Hfit]. unfold fd_read. rewrite Hp.
  assert (Hlen : (List.length c <= Z.to_nat n)%nat)
    by (unfold nbytes in Hfit; lia).
  rewrite (firstn_all2 _ Hlen), (skipn_all2 _ Hlen).
  destruct c as [|b c]; [cbn in Hpos; lia|].
  eexists. repeat split.
Qed.

(** When the loop stops on the limit, the access time is the one the
    reads have stamped. *)
Lemma read_parts_reaching_times (read_max block_size : Z) (c : list byte)
    (rest : list ReadEvent) :
  block_size <= 4096 ->
  fits block_size c ->
  forall (cs : list (list byte)) (fuel : nat) (f : PlatformFile)
         (total_bytes : Z) (sink : list SinkCall),
  fd_pending f = (map Chunk cs ++ Chunk c :: rest)%list ->
  Forall (fits block_size) cs ->
  total_bytes + chunk_total cs < read_max
    <= total_bytes + chunk_total cs + nbytes c ->
  (List.length cs < fuel)%nat ->
  exists f' sink',
    read_parts fuel read_max block_size f total_bytes sink
    = Some (ExceedsLimit, f', sink')
    /\ fd_times f' = mkPlatformTime (fd_clock f) (mtime (fd_times f)).
Proof.
  intros Hblock Hc.
  assert (Hstep : forall fuel f total sink d more,
             fd_pending f = Chunk d :: more -> fits block_size d ->
             exists f',
               fd_pending f' = more
               /\ fd_times f'
                  = mkPlatformTime (fd_clock f) (mtime (fd_times f))
               /\ fd_clock f' = fd_clock f
               /\ read_parts (S fuel) read_max block_size f total sink
                  = if total + nbytes d >=? read_max
                    then Some (ExceedsLimit, f', sink)
                    else read_parts fuel read_max block_size f'
                           (total + nbytes d) (sink ++ [delivered d])).
  { intros fuel f total sink d more Hp Hd.
    destruct (fd_read_whole_times f block_size d more Hp Hd)
      as (f' & Hread & Hp' & Ht & Hclock).
    exists f'. repeat split; try assumption.
    cbn [read_parts]. rewrite Hread. cbv beta iota. destruct Hd as [Hpos Hfit].
    destruct (nbytes d >? 0) eqn:E1; [|zbool; lia].
    destruct (nbytes d >? 4096) eqn:E2; [zbool; lia|]. reflexivity. }
  induction cs as [|d cs IH]; intros fuel f total sink Hp Hfits Hsum Hfuel;
    (destruct fuel as [|fuel]; [cbn [List.length] in Hfuel; lia|]);
    cbn [map app chunk_total List.length] in *.
  - destruct (Hstep fuel f total sink c rest Hp Hc)
      as (f' & _ & Ht & _ & ->).
    replace (total + nbytes c >=? read_max) with true
      by (symmetry; apply Z.geb_le; lia).
    now exists f', sink.
  - inversion Hfits as [|d' cs' Hd Hcs]; subst.
    destruct (Hstep fuel f total sink d _ Hp Hd)
      as (f' & Hp' & Ht & Hclock & ->).
    pose proof (chunk_total_nonneg cs).
    replace (total + nbytes d >=? read_max) with false
      by (symmetry; rewrite Z.geb_leb; apply Z.leb_gt; lia).
    destruct (IH fuel f' (total + nbytes d) (sink ++ [delivered d])%list)
      as (f'' & sink' & -> & Ht''); try assumption; try lia.
    exists f'', sink'. split; [reflexivity|].
    rewrite Ht'', Hclock, Ht. reflexivity.
Qed.

(** X10. A stream that is turned down on the limit is not put back: the
    call returns from inside the loop, before the restore of line 167, so
    even with [preserve_time] set and forensic preservation enabled the
    file is left with the access time that the reads have stamped. *)
Theorem failed_stream_not_restored (flags : Flags) (fs : Filesystem)
    (path : string) (size block_size : Z) (preserve_time blocking : bool)
    (f : PlatformFile) (cs : list (list byte)) (c : list byte)
    (rest : list ReadEvent) :
  OpenReadableFile fs path blocking = Some f ->
  isValid f = true ->
  determined_size f size = 0 ->
  block_size <= 4096 ->
  fd_pending f = (map Chunk cs ++ Chunk c :: rest)%list ->
  Forall (fits block_size) cs ->
  fits block_size c ->
  chunk_total cs < effective_read_max flags f <= chunk_total cs + nbytes c ->
  exists r f',
    readFile flags fs path size block_size false preserve_time blocking
    = Some r
    /\ rr_outcome r = Returns limit_exceeded
    /\ rr_file r = Some f'
    /\ fd_times f' = mkPlatformTime (fd_clock f) (mtime (fd_times f)).
Proof.
  intros Hopen Hvalid Hsize Hblock Hp Hfits Hc Hsum.
  unfold readFile. rewrite Hopen, Hvalid, Hsize. cbn [negb].
  pose proof (chunk_total_nonneg cs).
  destruct (0 >? effective_read_max flags f) eqn:E; [zbool; lia|].
  cbn [Z.eqb].
  destruct (read_parts_reaching_times (effective_read_max flags f) block_size
              c rest Hblock Hc cs (S (pending_bytes (fd_pending f))) f 0 [])
    as (f' & sink' & -> & Ht); try assumption.
  - rewrite Hp.
    pose proof (pending_bytes_chunks block_size cs (Chunk c :: rest) Hfits).
    lia.
  - eexists. exists f'. repeat split. exact Ht.
Qed.

Lemma failed_stream_not_restored_witness :
  let flags := mkFlags 4 4 false false in
  let pipe := sample_file 0 true false [Chunk [x61; x62]; Chunk [x63; x64]] in
  exists r f',
    readFile flags (sample_fs [] canon_same no_glob pipe)
      "/run/pipe" 0 4096 false true false
    = Some r
    /\ rr_outcome r = Returns limit_exceeded
    /\ rr_file r = Some f'
    /\ fd_times f' = mkPlatformTime 2000 900.
Proof.
  cbv zeta.
  apply (failed_stream_not_restored (mkFlags 4 4 false false)
           (sample_fs [] canon_same no_glob
              (sample_file 0 true false
                 [Chunk [x61; x62]; Chunk [x63; x64]]))
           "/run/pipe" 0 4096 true false
           (sample_file 0 true false [Chunk [x61; x62]; Chunk [x63; x64]])
           [[x61; x62]] [x63; x64] []).
  - reflexivity.
  - reflexivity.
  - reflexivity.
  - lia.
  - reflexivity.
  - repeat constructor; vm_compute; congruence.
  - split; vm_compute; congruence.
  - split; vm_compute; congruence.
Defined.

Lemma to_off_t_small (z : Z) : 0 <= z < 2 ^ 63 -> to_off_t z = z.
Proof.
  intros Hz. unfold to_off_t. rewrite Z.mod_small; lia.
Qed.

Lemma to_off_t_large (z : Z) :
  2 ^ 63 <= z < 2 ^ 64 -> to_off_t z = z - 2 ^ 64.
Proof.
  intros Hz. unfold to_off_t.
  replace (z + 2 ^ 63) with ((z - 2 ^ 63) + 1 * 2 ^ 64) by lia.
  rewrite Z.mod_add by lia. rewrite Z.mod_small; lia.
Qed.

(** X11. With ceilings that fit [off_t], a file owned by root is read
    under the root ceiling, and no file is read under a higher one: the
    ceiling of any file is at most that of a root-owned file. *)
Theorem root_ceiling_is_highest (flags : Flags) (f g : PlatformFile) :
  0 <= FLAGS_read_max flags < 2 ^ 63 ->
  0 <= FLAGS_read_user_max flags ->
  ok (isOwnerRoot g) = true ->
  effective_read_max flags g = FLAGS_read_max flags
  /\ effective_read_max flags f <= effective_read_max flags g
  /\ (ok (isOwnerRoot f) = false ->
      effective_read_max flags f
      = Z.min (FLAGS_read_max flags) (FLAGS_read_user_max flags)).
Proof.
  intros Hmax Huser Hroot. unfold effective_read_max. rewrite Hroot.
  rewrite (to_off_t_small (FLAGS_read_max flags) Hmax).
  split; [reflexivity|].
  destruct (ok (isOwnerRoot f)).
  - rewrite (to_off_t_small _ Hmax). split; [lia|discriminate].
  - rewrite to_off_t_small by lia. split; [lia|reflexivity].
Qed.

Lemma root_ceiling_is_highest_witness :
  effective_read_max default_flags (sample_file 1 false true [])
  = 50 * 1024 * 1024
  /\ effective_read_max default_flags (sample_file 1 false false [])
     <= effective_read_max default_flags (sample_file 1 false true [])
  /\ (ok (isOwnerRoot (sample_file 1 false false [])) = false ->
      effective_read_max default_flags (sample_file 1 false false [])
      = Z.min (50 * 1024 * 1024) (10 * 1024 * 1024)).
Proof.
  apply (root_ceiling_is_highest default_flags
           (sample_file 1 false false []) (sample_file 1 false true [])).
  - vm_compute. split; [discriminate|reflexivity].
  - vm_compute. discriminate.
  - reflexivity.
Defined.

(** X12. A root ceiling of 2^63 or more does not lift the limit: cast to
    [off_t] it is negative, and every read of a root-owned file whose size
    is not negative is turned down by the upfront check, nothing being
    read. *)
Theorem huge_read_max_rejects (flags : Flags) (fs : Filesystem)
    (path : string) (size block_size : Z)
    (dry_run preserve_time blocking : bool) (f : PlatformFile) :
  2 ^ 63 <= FLAGS_read_max flags < 2 ^ 64 ->
  OpenReadableFile fs path blocking = Some f ->
  isValid f = true ->
  ok (isOwnerRoot f) = true ->
  0 <= determined_size f size ->
  readFile flags fs path size block_size dry_run preserve_time blocking
  = Some (mkReadResult (Returns limit_exceeded) (Some f) []).
Proof.
  intros Hmax Hopen Hvalid Hroot Hsize.
  apply readFile_over_limit; try assumption.
  unfold effective_read_max. rewrite Hroot, (to_off_t_large _ Hmax). lia.
Qed.

Lemma huge_read_max_rejects_witness :
  readFile (mkFlags (2 ^ 64 - 1) (10 * 1024 * 1024) false true)
    (sample_fs [] canon_same no_glob
       (sample_file 4 false true [Chunk bytes_abcd]))
    "/etc/hostname" 0 4096 false false false
  = Some (mkReadResult (Returns limit_exceeded)
            (Some (sample_file 4 false true [Chunk bytes_abcd])) []).
Proof.
  apply huge_read_max_rejects.
  - vm_compute. split; [discriminate|reflexivity].
  - reflexivity.
  - reflexivity.
  - reflexivity.
  - vm_compute. discriminate.
Defined.





(** X14. A block size of zero reads nothing: on the streaming path the
    first [read] returns no data, the loop ends, and the call reports
    success without a single call to the sink, whatever the file holds. *)
Theorem zero_block_size_reads_nothing (flags : Flags) (fs : Filesystem)
    (path : string) (size : Z) (preserve_time blocking : bool)
    (f : PlatformFile) :
  OpenReadableFile fs path blocking = Some f ->
  isValid f = true ->
  determined_size f size = 0 ->
  0 <= effective_read_max flags f ->
  exists r,
    readFile flags fs path size 0 false preserve_time blocking = Some r
    /\ rr_outcome r = Returns (mkStatus 0 "OK")
    /\ rr_sink r = [].
Proof.
  intros Hopen Hvalid Hsize Hmax.
  unfold readFile. rewrite Hopen, Hvalid, Hsize. cbn [negb].
  destruct (0 >? effective_read_max flags f) eqn:E; [zbool; lia|].
  cbn [Z.eqb read_parts]. unfold fd_read.
  destruct (fd_pending f) as [|[bs|] rest]; cbn;
    eexists; repeat split.
Qed.

Lemma zero_block_size_reads_nothing_witness :
  exists r,
    readFile default_flags
      (sample_fs [] canon_same no_glob
         (sample_file 0 true false [Chunk bytes_abcd]))
      "/run/pipe" 0 0 false false false
    = Some r
    /\ rr_outcome r = Returns (mkStatus 0 "OK")
    /\ rr_sink r = [].
Proof.
  apply (zero_block_size_reads_nothing default_flags
           (sample_fs [] canon_same no_glob
              (sample_file 0 true false [Chunk bytes_abcd]))
           "/run/pipe" 0 false false
           (sample_file 0 true false [Chunk bytes_abcd])).
  - reflexivity.
  - reflexivity.
  - reflexivity.
  - vm_compute. discriminate.
Defined.

(* ================================================================== *)
(** * Glob translator: the stages *)
(* ================================================================== *)

Lemma find_from_bound (c : ascii) (s : string) :
  forall i j, find_from c s i = Some j -> i <= j < i + str_size s.
Proof.
  induction s as [|d s IH]; intros i j H; cbn [find_from] in H;
    [discriminate H|].
  rewrite str_size_cons. pose proof (str_size_nonneg s).
  destruct (Ascii.eqb d c).
  - inversion H; subst. lia.
  - specialize (IH _ _ H). lia.
Qed.

Lemma replace_all_absent (c to : ascii) (s : string) :
  forall i, find_from c s i = None -> replace_all s c to = s.
Proof.
  induction s as [|d s IH]; intros i H; [reflexivity|].
  cbn [find_from] in H. cbn [replace_all].
  destruct (Ascii.eqb d c); [discriminate H|]. now rewrite (IH _ H).
Qed.

Lemma replace_all_clears (s : string) :
  forall i, find_from "%" (replace_all s "%" "*") i = None.
Proof.
  induction s as [|d s IH]; intros i; [reflexivity|].
  cbn [replace_all find_from].
  destruct (Ascii.eqb d "%") eqn:E.
  - cbn. apply IH.
  - rewrite E. apply IH.
Qed.

Lemma replace_sql_wildcards_all (p : string) :
  representable p -> replace_sql_wildcards p = replace_all p "%" "*".
Proof.
  unfold representable, replace_sql_wildcards, str_find. intros Hp.
  destruct (find_from "%" p 0) as [j|] eqn:E.
  - apply find_from_bound in E.
    replace (j =? npos) with false by (symmetry; apply Z.eqb_neq; lia).
    reflexivity.
  - rewrite Z.eqb_refl. cbn [negb]. symmetry.
    now apply (replace_all_absent "%" "*" p 0).
Qed.

Lemma replace_sql_wildcards_replaced (p : string) :
  replace_sql_wildcards (replace_all p "%" "*") = replace_all p "%" "*".
Proof.
  unfold replace_sql_wildcards.
  destruct (negb (str_find (replace_all p "%" "*") "%" =? npos));
    [apply replace_all_idempotent|reflexivity].
Qed.

(** X15. The SQL wildcard and the glob wildcard are one to the
    translator: a pattern and the same pattern with every % turned into *
    have the same translation, and after the first stage no % is left. *)
Theorem percent_translates_as_star (fs : Filesystem) (p : string)
    (limits : Z) :
  representable p ->
  replaceGlobWildcards fs p limits
  = replaceGlobWildcards fs (replace_all p "%" "*") limits
  /\ str_find (replace_sql_wildcards p) "%" = npos.
Proof.
  intros Hp. unfold replaceGlobWildcards.
  rewrite (replace_sql_wildcards_all p Hp), replace_sql_wildcards_replaced.
  split; [reflexivity|].
  unfold str_find. now rewrite replace_all_clears.
Qed.

Lemma percent_translates_as_star_witness :
  let fs := sample_fs ["/etc"%string] canon_etc no_glob
              (sample_file 0 false false []) in
  replaceGlobWildcards fs "/etc/%.conf" GLOB_ALL
  = replaceGlobWildcards fs "/etc/*.conf" GLOB_ALL
  /\ str_find (replace_sql_wildcards "/etc/%.conf") "%" = npos.
Proof.
  cbv zeta.
  apply (percent_translates_as_star
           (sample_fs ["/etc"%string] canon_etc no_glob
              (sample_file 0 false false []))
           "/etc/%.conf" GLOB_ALL).
  reflexivity.
Defined.

(** X16. Canonicalization only ever replaces the base: the translation is
    a new base, which is the old base, its canonical form or its canonical
    form with a separator added, followed by the unchanged part of the
    anchored pattern from its first star on. *)
Theorem canonicalization_keeps_wildcards (fs : Filesystem) (p : string)
    (limits : Z) :
  let q := anchor_relative fs (replace_sql_wildcards p) in
  exists base,
    replaceGlobWildcards fs p limits
    = (base ++ substr_from q (str_size (glob_base q)))%string
    /\ (base = glob_base q
        \/ base = fs_canonical fs (glob_base q)
        \/ base = (fs_canonical fs (glob_base q) ++ "/")%string).
Proof.
  intros q. unfold replaceGlobWildcards. fold q. unfold canonicalize_base.
  assert (Hsame : exists base,
             q = (base ++ substr_from q (str_size (glob_base q)))%string
             /\ (base = glob_base q
                 \/ base = fs_canonical fs (glob_base q)
                 \/ base = (fs_canonical fs (glob_base q) ++ "/")%string)).
  { exists (glob_base q). split; [now rewrite glob_base_split|now left]. }
  destruct (str_size (glob_base q) >? 0); [|exact Hsame].
  destruct (Z.land limits GLOB_NO_CANON =? 0).
  - destruct ((str_size (fs_canonical fs (glob_base q)) >? 0)
              && negb (String.eqb (fs_canonical fs (glob_base q))
                         (glob_base q))); [|exact Hsame].
    destruct (ok (isDirectory fs (fs_canonical fs (glob_base q)))).
    + eexists. split; [reflexivity|]. right. now right.
    + eexists. split; [reflexivity|]. right. now left.
  - rewrite String.eqb_refl, andb_false_r. exact Hsame.
Qed.

(** X17. When canonicalization is skipped by [GLOB_NO_CANON], or fails
    because the base does not exist, the pattern is left as the first two
    stages built it; for a pattern that starts with a separator or with the
    home marker that is the pattern with its SQL wildcards replaced, the
    home marker being left unexpanded. *)
Theorem uncanonicalized_pattern (fs : Filesystem) (p : string) (limits : Z) :
  let q := anchor_relative fs (replace_sql_wildcards p) in
  has_limit limits GLOB_NO_CANON = true
  \/ fs_canonical fs (glob_base q) = ""%string ->
  replaceGlobWildcards fs p limits = q
  /\ (is_separator (char_at p 0) = true \/ char_at p 0 = "~"%char ->
      replaceGlobWildcards fs p limits = replace_sql_wildcards p).
Proof.
  intros q Hskip.
  assert (Hq : replaceGlobWildcards fs p limits = q).
  { unfold replaceGlobWildcards. fold q. unfold canonicalize_base.
    destruct (str_size (glob_base q) >? 0); [|reflexivity].
    destruct Hskip as [Hno|Hfail].
    - unfold has_limit in Hno.
      destruct (Z.land limits GLOB_NO_CANON =? 0); [discriminate Hno|].
      now rewrite String.eqb_refl, andb_false_r.
    - destruct (Z.land limits GLOB_NO_CANON =? 0).
      + rewrite Hfail. reflexivity.
      + now rewrite String.eqb_refl, andb_false_r. }
  split; [exact Hq|]. intros Hhead. rewrite Hq. unfold q, anchor_relative.
  replace (treated_as_relative (replace_sql_wildcards p)) with false;
    [reflexivity|].
  symmetry. destruct Hhead as [Habs|Hhome].
  - apply absolute_not_relative. unfold is_absolute.
    now rewrite replace_sql_wildcards_head.
  - assert (Hh : char_at (replace_sql_wildcards p) 0 = "~"%char).
    { unfold replace_sql_wildcards.
      destruct (negb (str_find p "%" =? npos)); [|exact Hhome].
      destruct p as [|c s]; [discriminate Hhome|].
      cbn [replace_all]. rewrite char_at_0_cons in *. now subst c. }
    unfold treated_as_relative. rewrite Hh. cbn. apply andb_false_r.
Qed.

Lemma uncanonicalized_pattern_witness :
  let fs := sample_fs [] canon_fails no_glob (sample_file 0 false false []) in
  replaceGlobWildcards fs "~/.ssh/%" GLOB_ALL
  = anchor_relative fs (replace_sql_wildcards "~/.ssh/%")
  /\ (is_separator (char_at "~/.ssh/%" 0) = true
      \/ char_at "~/.ssh/%" 0 = "~"%char ->
      replaceGlobWildcards fs "~/.ssh/%" GLOB_ALL
      = replace_sql_wildcards "~/.ssh/%").
Proof.
  cbv zeta.
  apply (uncanonicalized_pattern
           (sample_fs [] canon_fails no_glob (sample_file 0 false false []))
           "~/.ssh/%" GLOB_ALL).
  right. reflexivity.
Defined.

(* ================================================================== *)
(** * Glob expander: what is expanded and what is kept *)
(* ================================================================== *)

Lemma str_append_assoc (a b c : string) :
  ((a ++ b) ++ c)%string = (a ++ b ++ c)%string.
Proof.
  induction a as [|d a IH]; [reflexivity|].
  cbn [String.append]. now rewrite IH.
Qed.

Lemma deepen_shift (path : string) (k : nat) :
  deepen (path ++ "/**") k = deepen path (S k).
Proof.
  induction k as [|k IH]; [reflexivity|].
  cbn [deepen] in *. now rewrite IH.
Qed.

Lemma deepen_seq_shift (path : string) (n : nat) :
  map (deepen path) (seq 1 n) = map (deepen (path ++ "/**")) (seq 0 n).
Proof.
  rewrite <- seq_shift, map_map. apply map_ext. intros k.
  symmetry. apply deepen_shift.
Qed.

(** The loop expands the pattern it is given and then the same pattern
    with one more recursive suffix each time; what it adds to the results
    is what [platformGlob] finds for these patterns, in that order. *)
Lemma glob_loop_chain (fs : Filesystem) :
  forall (fuel : nat) (glob_index : Z) (st : GlobState),
  0 <= glob_index < kMaxRecursiveGlobs ->
  kMaxRecursiveGlobs - glob_index <= Z.of_nat fuel ->
  exists st' n,
    glob_loop fuel fs glob_index st = inr st'
    /\ Z.of_nat n <= 63 - glob_index
    /\ (glob_index < 63 -> (1 <= n)%nat)
    /\ gs_expanded st'
       = (gs_expanded st ++ map (deepen (gs_path st)) (seq 0 n))%list
    /\ gs_results st'
       = (gs_results st
          ++ List.concat
               (map (platformGlob fs)
                  (map (deepen (gs_path st)) (seq 0 n))))%list.
Proof.
  unfold kMaxRecursiveGlobs.
  induction fuel as [|fuel IH]; intros gi st Hgi Hfuel.
  - cbn [Z.of_nat] in Hfuel. lia.
  - rewrite glob_loop_step. unfold kMaxRecursiveGlobs.
    assert (Hwrap : to_size_t (gi + 1) = gi + 1).
    { unfold to_size_t, size_t_modulus. apply Z.mod_small. lia. }
    rewrite Hwrap.
    destruct (gi + 1 <? 64) eqn:Hcond.
    + apply Z.ltb_lt in Hcond.
      destruct ((Z.of_nat (List.length (platformGlob fs (gs_path st))) =? 0)
                || (rfind_stars (gs_path st) >? str_size (gs_path st))
                || (rfind_stars (gs_path st)
                    <? to_size_t (str_size (gs_path st) - 3))).
      * eexists. exists 1%nat. split; [reflexivity|].
        cbn [gs_expanded gs_results seq map deepen List.concat].
        rewrite app_nil_r. repeat split; lia.
      * destruct (IH (gi + 1)
                    (mkGlobState (gs_path st ++ "/**")%string
                       (gs_results st ++ platformGlob fs (gs_path st))
                       (gs_expanded st ++ [gs_path st])))
          as (st' & n & Hrun & Hn & _ & Hexp & Hres); [lia|lia|].
        exists st', (S n). split; [exact Hrun|].
        cbn [gs_expanded gs_results gs_path] in Hexp, Hres.
        split; [lia|]. split; [lia|].
        cbn [seq map deepen List.concat].
        rewrite deepen_seq_shift. split.
        -- now rewrite Hexp, <- app_assoc.
        -- now rewrite Hres, <- app_assoc.
    + apply Z.ltb_ge in Hcond. exists st, O.
      cbn [seq map List.concat]. rewrite !app_nil_r. repeat split; lia.
Qed.

(** X18. The expansion hands to [platformGlob] the translated pattern and
    then, one after the other, that pattern with one more /** appended
    each time, between 1 and 63 patterns in all; the results are the
    caller's entries followed by the matches of these patterns in that
    order. *)
Theorem expansion_follows_chain (fs : Filesystem) (pattern : string)
    (results : list string) (limits : Z) :
  let path := replaceGlobWildcards fs pattern limits in
  exists st n,
    genGlobs_expand fs pattern results limits = inr st
    /\ (1 <= n <= 63)%nat
    /\ gs_expanded st = map (deepen path) (seq 0 n)
    /\ gs_results st
       = (results
          ++ List.concat (map (platformGlob fs) (gs_expanded st)))%list.
Proof.
  intros path. unfold genGlobs_expand. fold path.
  destruct (glob_loop_chain fs (Z.to_nat kMaxRecursiveGlobs) 0
              (mkGlobState path results []))
    as (st & n & Hrun & Hn & Hpos & Hexp & Hres);
    [unfold kMaxRecursiveGlobs; lia|unfold kMaxRecursiveGlobs; lia|].
  cbn [gs_expanded gs_results gs_path app] in Hexp, Hres.
  exists st, n. split; [exact Hrun|]. split; [lia|].
  split; [exact Hexp|]. now rewrite Hexp.
Qed.

(** X19. A pattern is expanded exactly once when its translation has no
    two adjacent stars, and also when its first expansion finds nothing:
    the results are the caller's entries followed by the matches of the
    translated pattern, and no deeper pattern is tried. *)
Theorem expanded_once (fs : Filesystem) (pattern : string)
    (results : list string) (limits : Z) :
  let path := replaceGlobWildcards fs pattern limits in
  platformGlob fs path = []
  \/ (representable path /\ rfind_stars_from path 0 None = None) ->
  genGlobs_expand fs pattern results limits
  = inr (mkGlobState path (results ++ platformGlob fs path) [path]).
Proof.
  intros path Hstop. unfold genGlobs_expand. fold path.
  change (Z.to_nat kMaxRecursiveGlobs) with (S 63).
  rewrite glob_loop_step. cbn [gs_path gs_results gs_expanded app].
  change (to_size_t (0 + 1) <? kMaxRecursiveGlobs) with true. cbv iota.
  destruct Hstop as [Hempty|[Hrep Hnone]].
  - rewrite Hempty. reflexivity.
  - unfold rfind_stars. rewrite Hnone.
    replace (npos >? str_size path) with true
      by (symmetry; apply Z.gtb_lt; exact Hrep).
    rewrite orb_true_r. reflexivity.
Qed.

Lemma expanded_once_witness :
  genGlobs_expand
    (sample_fs [] canon_fails glob_data (sample_file 0 false false []))
    "/srv/data/%" ["/var/log/syslog"%string] GLOB_ALL
  = inr (mkGlobState "/srv/data/*"
           ["/var/log/syslog"; "/srv/data/a.txt"; "/srv/data/sub/"]%string
           ["/srv/data/*"%string]).
Proof.
  apply (expanded_once
           (sample_fs [] canon_fails glob_data (sample_file 0 false false []))
           "/srv/data/%" ["/var/log/syslog"%string] GLOB_ALL).
  right. split; reflexivity.
Defined.

Lemma pruned_kept (limits : Z) (found : string) :
  found <> ""%string ->
  pruned limits found = inr (negb (kept_by limits found)).
Proof.
  intros Hne. unfold pruned, kept_by, is_folder_entry, last_char.
  destruct (str_index_in_range found _ (last_index_in_range found Hne))
    as [c ->].
  unfold is_separator.
  now destruct (Ascii.eqb c "/"), (Ascii.eqb c "\").
Qed.

(** On entries that are not empty the kind filter is [filter]. *)
Lemma prune_filter (limits : Z) (results : list string) :
  Forall (fun found => found <> ""%string) results ->
  prune limits results = inr (filter (kept_by limits) results).
Proof.
  induction 1 as [|found rest Hne _ IH]; cbn [prune filter]; [reflexivity|].
  rewrite (pruned_kept limits found Hne), IH. cbn [bind].
  now destruct (kept_by limits found).
Qed.

Lemma prune_value_nonempty (limits : Z) (results kept : list string) :
  prune limits results = inr kept ->
  Forall (fun found => found <> ""%string) results.
Proof.
  intros H. destruct (nonempty_or_in results) as [Hin|Hall]; [|exact Hall].
  rewrite (prune_out_of_range limits results Hin) in H. discriminate H.
Qed.

(** What a call of [genGlobs] that returns has in its results. *)
Lemma genGlobs_value (fs : Filesystem) (pattern : string)
    (results out : list string) (limits : Z) :
  genGlobs fs pattern results limits = inr out ->
  exists matches,
    out = (filter (kept_by limits) results
           ++ filter (kept_by limits) matches)%list
    /\ Forall (fun found => exists p, In found (platformGlob fs p)) matches.
Proof.
  unfold genGlobs, genGlobs_expand. intros H.
  destruct (glob_loop_returns fs (Z.to_nat kMaxRecursiveGlobs) 0
              (mkGlobState (replaceGlobWildcards fs pattern limits)
                 results []))
    as (st & matches & Hrun & _ & Hres & Hfrom);
    [unfold kMaxRecursiveGlobs; lia|unfold kMaxRecursiveGlobs; lia|].
  rewrite Hrun in H. cbn [bind gs_results] in H, Hres. rewrite Hres in H.
  pose proof (prune_value_nonempty _ _ _ H) as Hne.
  rewrite (prune_filter limits _ Hne), filter_app in H.
  inversion H. exists matches. split; [reflexivity|exact Hfrom].
Qed.

(** X20. The kind filter runs over the whole vector, not only over what
    the call has found: of the entries the caller passes in, those of a
    kind that the limits of this call do not ask for are dropped, the
    others stay in front, in their order, followed by the matches of the
    asked kinds. *)
Theorem caller_entries_are_filtered (fs : Filesystem) (pattern : string)
    (results out : list string) (limits : Z) :
  genGlobs fs pattern results limits = inr out ->
  exists matches,
    out = (filter (kept_by limits) results
           ++ filter (kept_by limits) matches)%list
    /\ Forall (fun found => exists p, In found (platformGlob fs p)) matches
    /\ Forall (fun found => kept_by limits found = true) out.
Proof.
  intros H. destruct (genGlobs_value fs pattern results out limits H)
    as (matches & Hout & Hfrom).
  exists matches. split; [exact Hout|]. split; [exact Hfrom|].
  subst out. apply Forall_app.
  split; apply Forall_forall; intros found Hin;
    apply filter_In in Hin; tauto.
Qed.

Lemma caller_entries_are_filtered_witness :
  exists matches,
    ["/var/log/syslog"; "/srv/data/a.txt"]%string
    = (filter (kept_by GLOB_FILES) ["/var/log/syslog"; "/var/log/"]%string
       ++ filter (kept_by GLOB_FILES) matches)%list
    /\ Forall (fun found =>
                 exists p,
                   In found
                     (platformGlob
                        (sample_fs [] canon_fails glob_data
                           (sample_file 0 false false [])) p))
         matches
    /\ Forall (fun found => kept_by GLOB_FILES found = true)
         ["/var/log/syslog"; "/srv/data/a.txt"]%string.
Proof.
  apply (caller_entries_are_filtered
           (sample_fs [] canon_fails glob_data (sample_file 0 false false []))
           "/srv/data/%" ["/var/log/syslog"; "/var/log/"]%string
           ["/var/log/syslog"; "/srv/data/a.txt"]%string GLOB_FILES).
  reflexivity.
Defined.

(** X21. Limits that ask for neither files nor folders leave nothing: a
    call of [resolveFilePattern] with such limits that returns gives back
    an empty vector with status OK, the entries the caller had passed in
    being erased with the matches. *)
Theorem no_kind_erases_results (fs : Filesystem) (fs_path : string)
    (results : list string) (limits : Z) :
  has_limit limits GLOB_FILES = false ->
  has_limit limits GLOB_FOLDERS = false ->
  resolveFilePattern fs fs_path results limits = inl IndexOutOfRange
  \/ resolveFilePattern fs fs_path results limits
     = inr (mkStatus 0 "OK", []).
Proof.
  intros Hfiles Hfolders. unfold resolveFilePattern.
  destruct (genGlobs fs fs_path results limits) as [fault|out] eqn:Hrun.
  - left. cbn [bind]. f_equal. revert Hrun. unfold genGlobs, genGlobs_expand.
    destruct (glob_loop_returns fs (Z.to_nat kMaxRecursiveGlobs) 0
                (mkGlobState (replaceGlobWildcards fs fs_path limits)
                   results []))
      as (st & matches & Hexp & _);
      [unfold kMaxRecursiveGlobs; lia|unfold kMaxRecursiveGlobs; lia|].
    rewrite Hexp. cbn [bind]. intros Hrun.
    destruct (nonempty_or_in (gs_results st)) as [Hin|Hall].
    + rewrite (prune_out_of_range limits _ Hin) in Hrun. congruence.
    + destruct (prune_defined limits _ Hall) as [kept Hk]. congruence.
  - right. cbn [bind]. f_equal. f_equal.
    destruct (genGlobs_value fs fs_path results out limits Hrun)
      as (matches & -> & _).
    assert (Hnone : forall l, filter (kept_by limits) l = []).
    { intros l. induction l as [|a l IH]; [reflexivity|]. cbn [filter].
      unfold kept_by at 1. rewrite Hfiles, Hfolders, !andb_false_r.
      exact IH. }
    now rewrite !Hnone.
Qed.

Lemma no_kind_erases_results_witness :
  resolveFilePattern
    (sample_fs [] canon_fails glob_data (sample_file 0 false false []))
    "/srv/data/%" ["/var/log/syslog"%string] GLOB_NO_CANON
  = inr (mkStatus 0 "OK", []).
Proof.
  destruct (no_kind_erases_results
              (sample_fs [] canon_fails glob_data
                 (sample_file 0 false false []))
              "/srv/data/%" ["/var/log/syslog"%string] GLOB_NO_CANON
              eq_refl eq_refl) as [H|H].
  - vm_compute in H. discriminate H.
  - exact H.
Defined.

(* ================================================================== *)
(** * Directory listings *)
(* ================================================================== *)

(** A listing that reports success is the expansion of its pattern. *)
Lemma listing_value (fs : Filesystem) (pl : Platform) (path : string)
    (results out : list string) (limits : Z) (st : Status) :
  listInAbsoluteDirectory fs pl path results limits = inr (st, out) ->
  ok st = true ->
  genGlobs fs path results limits = inr out.
Proof.
  unfold listInAbsoluteDirectory. intros H Hok.
  destruct (String.eqb (path_filename pl path) "*"
            && negb (ok (pathExists pl (path_parent_path pl path)))).
  { inversion H; subst. discriminate Hok. }
  destruct (String.eqb (path_filename pl path) "*"
            && negb (ok (isDirectory fs (path_parent_path pl path)))).
  { inversion H; subst. discriminate Hok. }
  destruct (genGlobs fs path results limits) as [fault|found];
    cbn [bind] in H; [discriminate H|]. now inversion H.
Qed.

Lemma files_are_not_folders (found : string) :
  kept_by GLOB_FILES found = true -> is_folder_entry found = false.
Proof.
  unfold kept_by.
  change (has_limit GLOB_FILES GLOB_FOLDERS) with false.
  change (has_limit GLOB_FILES GLOB_FILES) with true.
  now destruct (is_folder_entry found).
Qed.

Lemma folders_are_folders (found : string) :
  kept_by GLOB_FOLDERS found = true -> is_folder_entry found = true.
Proof.
  unfold kept_by.
  change (has_limit GLOB_FOLDERS GLOB_FOLDERS) with true.
  change (has_limit GLOB_FOLDERS GLOB_FILES) with false.
  now destruct (is_folder_entry found).
Qed.

(** X23. A listing of files that succeeds holds no entry that ends in a
    separator, and a listing of directories that succeeds holds only
    such entries; this goes for what the caller had in the vector before
    as well. *)
Theorem listings_hold_one_kind (fs : Filesystem) (pl : Platform)
    (path : string) (results out : list string) (recursive : bool)
    (st : Status) :
  ok st = true ->
  (listFilesInDirectory fs pl path results recursive = inr (st, out) ->
   Forall (fun found => is_folder_entry found = false) out)
  /\ (listDirectoriesInDirectory fs pl path results recursive
      = inr (st, out) ->
      Forall (fun found => is_folder_entry found = true) out).
Proof.
  intros Hok. split; intros H.
  - apply listing_value in H; [|exact Hok].
    destruct (genGlobs_value _ _ _ _ _ H) as (matches & -> & _).
    apply Forall_app. split; apply Forall_forall; intros found Hin;
      apply filter_In in Hin; apply files_are_not_folders; tauto.
  - apply listing_value in H; [|exact Hok].
    destruct (genGlobs_value _ _ _ _ _ H) as (matches & -> & _).
    apply Forall_app. split; apply Forall_forall; intros found Hin;
      apply filter_In in Hin; apply folders_are_folders; tauto.
Qed.

Lemma listings_hold_one_kind_witness :
  Forall (fun found => is_folder_entry found = false)
    ["/srv/data/a.txt"%string].
Proof.
  apply (proj1 (listings_hold_one_kind
                  (sample_fs ["/srv/data"%string] canon_fails glob_data
                     (sample_file 0 false false []))
                  (sample_platform ["/srv/data"%string]) "/srv/data"
                  ["/var/log/"%string] ["/srv/data/a.txt"%string] false
                  (mkStatus 0 "OK") eq_refl)).
  reflexivity.
Defined.

(** X24. The two listings do not add up in one vector: when the folders
    of a directory have been listed into a vector and the files are then
    listed into the same vector, none of the folders is left in it. *)
Theorem files_listing_erases_folders (fs : Filesystem) (pl : Platform)
    (path path' : string) (before folders out : list string)
    (recursive recursive' : bool) (st st' : Status) :
  listDirectoriesInDirectory fs pl path before recursive
  = inr (st, folders) ->
  ok st = true ->
  listFilesInDirectory fs pl path' folders recursive' = inr (st', out) ->
  ok st' = true ->
  forall found, In found folders -> ~ In found out.
Proof.
  intros Hdirs Hok Hfiles Hok' found Hin Hout.
  apply listing_value in Hdirs; [|exact Hok].
  apply listing_value in Hfiles; [|exact Hok'].
  destruct (genGlobs_value _ _ _ _ _ Hdirs) as (m & -> & _).
  destruct (genGlobs_value _ _ _ _ _ Hfiles) as (m' & -> & _).
  assert (Hfolder : is_folder_entry found = true).
  { apply folders_are_folders.
    apply in_app_or in Hin. destruct Hin as [Hin|Hin];
      apply filter_In in Hin; tauto. }
  assert (Hfile : is_folder_entry found = false).
  { apply files_are_not_folders.
    apply in_app_or in Hout. destruct Hout as [Hout|Hout];
      apply filter_In in Hout; tauto. }
  congruence.
Qed.

Lemma files_listing_erases_folders_witness :
  Forall (fun found => ~ In found ["/srv/data/a.txt"%string])
    ["/srv/data/sub/"%string].
Proof.
  apply Forall_forall.
  apply (files_listing_erases_folders
           (sample_fs ["/srv/data"%string] canon_fails glob_data
              (sample_file 0 false false []))
           (sample_platform ["/srv/data"%string]) "/srv/data" "/srv/data"
           [] ["/srv/data/sub/"%string] ["/srv/data/a.txt"%string]
           false false (mkStatus 0 "OK") (mkStatus 0 "OK"));
    reflexivity.
Defined.

(* ================================================================== *)
(** * Existence and access checks, the home directory *)
(* ================================================================== *)

(** X25. [isWritable] reports success exactly for a non-empty path that
    exists without an error code and to which write access is granted;
    when the existence check fails, its status is what [isWritable] and
    [isReadable] return, which for the empty path is code 1 with the
    message -1 on any platform. *)
Theorem access_needs_existence (pl : Platform) (path : string) :
  (ok (isWritable pl path) = true
   <-> (path <> ""%string
        /\ fst (fs_exists pl path) = true
        /\ ec_value (snd (fs_exists pl path)) = errc_success
        /\ platformAccess pl path W_OK = 0))
  /\ (ok (pathExists pl path) = false ->
      isWritable pl path = pathExists pl path
      /\ isReadable pl path = pathExists pl path)
  /\ pathExists pl "" = mkStatus 1 "-1".
Proof.
  split; [|split; [|reflexivity]].
  - unfold isWritable, pathExists.
    destruct (str_size path =? 0) eqn:Hsize.
    + apply Z.eqb_eq, str_size_empty_iff in Hsize. subst path. cbn.
      split; [discriminate|]. intros (H & _). now elim H.
    + apply Z.eqb_neq in Hsize.
      assert (Hne : path <> ""%string)
        by (intros ->; apply Hsize; reflexivity).
      destruct (fs_exists pl path) as [found ec]. cbn [fst snd].
      destruct found; cbn [negb orb].
      * destruct (ec_value ec =? errc_success) eqn:Hec; cbn [negb].
        -- apply Z.eqb_eq in Hec. cbn [ok getCode Z.eqb negb].
           destruct (platformAccess pl path W_OK =? 0) eqn:Hacc.
           ++ apply Z.eqb_eq in Hacc. split; [intros _|reflexivity].
              repeat split; assumption.
           ++ apply Z.eqb_neq in Hacc. cbn. split; [discriminate|].
              intros (_ & _ & _ & H). contradiction.
        -- apply Z.eqb_neq in Hec. cbn. split; [discriminate|].
           intros (_ & _ & H & _). contradiction.
      * cbn. split; [discriminate|]. intros (_ & H & _). discriminate H.
  - intros Hfail. unfold isWritable, isReadable. rewrite Hfail.
    cbn [negb]. now split.
Qed.

(** X26. The home directory is computed once: a non-empty value that one
    call has left in the static [homedir] is what every later call
    returns, whatever the platform answers then. *)
Theorem home_directory_is_cached (pl pl' : Platform) (homedir : string) :
  osqueryHomeDirectory pl homedir <> ""%string ->
  osqueryHomeDirectory pl' (osqueryHomeDirectory pl homedir)
  = osqueryHomeDirectory pl homedir.
Proof.
  intros Hne. unfold osqueryHomeDirectory at 1.
  replace (str_size (osqueryHomeDirectory pl homedir) =? 0) with false;
    [reflexivity|].
  symmetry. apply Z.eqb_neq. intros H.
  apply str_size_empty_iff in H. contradiction.
Qed.

Lemma home_directory_is_cached_witness :
  osqueryHomeDirectory (sample_platform [])
    (osqueryHomeDirectory (sample_platform ["/home/osquery"%string]) "")
  = "/home/osquery/.osquery"%string.
Proof.
  apply (home_directory_is_cached
           (sample_platform ["/home/osquery"%string]) (sample_platform []) "").
  vm_compute. discriminate.
Defined.

(* ================================================================== *)
(** * Permission bits as text *)
(* ================================================================== *)

Lemma lsperms_digits (mode : Z) :
  lsperms mode
  = String (nth (Z.to_nat (Z.land (Z.shiftr mode 9) 7)) rwx zero)
      (String (nth (Z.to_nat (Z.land (Z.shiftr mode 6) 7)) rwx zero)
         (String (nth (Z.to_nat (Z.land (Z.shiftr mode 3) 7)) rwx zero)
            (String (nth (Z.to_nat (Z.land (Z.shiftr mode 0) 7)) rwx zero)
               ""))).
Proof. reflexivity. Qed.

(** The three bits taken at offset [k] are an octal digit of the mode. *)
Lemma three_bits (mode k : Z) :
  0 <= k -> Z.land (Z.shiftr mode k) 7 = (mode / 2 ^ k) mod 8.
Proof.
  intros Hk. rewrite Z.shiftr_div_pow2 by exact Hk.
  change 7 with (Z.ones 3). rewrite Z.land_ones by lia. reflexivity.
Qed.

Lemma rwx_digit (i : Z) :
  0 <= i < 8 ->
  octal_digit (nth (Z.to_nat i) rwx zero) = i
  /\ is_octal_digit (nth (Z.to_nat i) rwx zero) = true.
Proof.
  intros Hi.
  assert (H : i = 0 \/ i = 1 \/ i = 2 \/ i = 3
              \/ i = 4 \/ i = 5 \/ i = 6 \/ i = 7) by lia.
  repeat (destruct H as [->|H]; [split; reflexivity|]).
  subst i. split; reflexivity.
Qed.

Lemma lsperms_shape (mode : Z) :
  String.length (lsperms mode) = 4%nat
  /\ string_forallb is_octal_digit (lsperms mode) = true.
Proof.
  rewrite lsperms_digits, !three_bits by lia.
  assert (H9 : 0 <= (mode / 2 ^ 9) mod 8 < 8) by (apply Z.mod_pos_bound; lia).
  assert (H6 : 0 <= (mode / 2 ^ 6) mod 8 < 8) by (apply Z.mod_pos_bound; lia).
  assert (H3 : 0 <= (mode / 2 ^ 3) mod 8 < 8) by (apply Z.mod_pos_bound; lia).
  assert (H0 : 0 <= (mode / 2 ^ 0) mod 8 < 8) by (apply Z.mod_pos_bound; lia).
  destruct (rwx_digit _ H9) as [_ D9], (rwx_digit _ H6) as [_ D6],
           (rwx_digit _ H3) as [_ D3], (rwx_digit _ H0) as [_ D0].
  split; [reflexivity|].
  cbn [string_forallb]. now rewrite D9, D6, D3, D0.
Qed.

Lemma lsperms_value (mode : Z) : octal_value (lsperms mode) = mode mod 4096.
Proof.
  rewrite lsperms_digits, !three_bits by lia.
  assert (H9 : 0 <= (mode / 2 ^ 9) mod 8 < 8) by (apply Z.mod_pos_bound; lia).
  assert (H6 : 0 <= (mode / 2 ^ 6) mod 8 < 8) by (apply Z.mod_pos_bound; lia).
  assert (H3 : 0 <= (mode / 2 ^ 3) mod 8 < 8) by (apply Z.mod_pos_bound; lia).
  assert (H0 : 0 <= (mode / 2 ^ 0) mod 8 < 8) by (apply Z.mod_pos_bound; lia).
  destruct (rwx_digit _ H9) as [V9 _], (rwx_digit _ H6) as [V6 _],
           (rwx_digit _ H3) as [V3 _], (rwx_digit _ H0) as [V0 _].
  unfold octal_value. cbn [octal_value_from].
  rewrite V9, V6, V3, V0.
  change (2 ^ 9) with 512. change (2 ^ 6) with 64.
  change (2 ^ 3) with 8. change (2 ^ 0) with 1.
  clear. Z.to_euclidean_division_equations. lia.
Qed.

(** X27. [lsperms] writes the low twelve bits of the mode as four octal
    digits: the text has length 4, holds only the digits 0 to 7, and read
    back as an octal number it is the mode modulo 4096, also for a
    negative mode. *)
Theorem lsperms_is_octal (mode : Z) :
  String.length (lsperms mode) = 4%nat
  /\ string_forallb is_octal_digit (lsperms mode) = true
  /\ octal_value (lsperms mode) = mode mod 4096.
Proof.
  destruct (lsperms_shape mode) as [Hlen Hdigits].
  split; [exact Hlen|]. split; [exact Hdigits|apply lsperms_value].
Qed.

Lemma lsperms_low_bits (mode : Z) : lsperms (mode mod 4096) = lsperms mode.
Proof.
  rewrite !lsperms_digits, !three_bits by lia.
  change (2 ^ 9) with 512. change (2 ^ 6) with 64.
  change (2 ^ 3) with 8. change (2 ^ 0) with 1.
  assert (E9 : (mode mod 4096 / 512) mod 8 = (mode / 512) mod 8)
    by (clear; Z.to_euclidean_division_equations; lia).
  assert (E6 : (mode mod 4096 / 64) mod 8 = (mode / 64) mod 8)
    by (clear; Z.to_euclidean_division_equations; lia).
  assert (E3 : (mode mod 4096 / 8) mod 8 = (mode / 8) mod 8)
    by (clear; Z.to_euclidean_division_equations; lia).
  assert (E0 : (mode mod 4096 / 1) mod 8 = (mode / 1) mod 8)
    by (clear; Z.to_euclidean_division_equations; lia).
  now rewrite E9, E6, E3, E0.
Qed.

(** X28. Two modes are written alike exactly when they agree on their low
    twelve bits: the text tells the permission, set-id and sticky bits
    apart and ignores the file type bits above them. *)
Theorem lsperms_same_iff (mode mode' : Z) :
  lsperms mode = lsperms mode' <-> mode mod 4096 = mode' mod 4096.
Proof.
  split.
  - intros H. apply (f_equal octal_value) in H.
    now rewrite !lsperms_value in H.
  - intros H. rewrite <- (lsperms_low_bits mode), H. apply lsperms_low_bits.
Qed.

(* ================================================================== *)
(** * Writing a text file *)
(* ================================================================== *)

(** X29. [writeTextFile] reports success only when the descriptor was
    valid, the permissions were set and [write] returned the full length
    of the content: a failed or short write, -1 included, is an error.
    The calls go in order, open, then chmod, then write; a failed open
    makes no further call and a failed chmod leaves the content
    unwritten. *)
Theorem write_reports_short_writes (w : WriteAnswers) (path content : string)
    (permissions : Z) (force_permissions : bool) :
  - 2 ^ 63 <= write_returns w < 2 ^ 63 ->
  str_size content < 2 ^ 63 ->
  let result := writeTextFile w path content permissions force_permissions in
  (ok (fst result) = true
   <-> (open_isValid w = true /\ platformChmod w = true
        /\ write_returns w = str_size content))
  /\ (open_isValid w = false ->
      snd result
      = [CallOpen path [PF_OPEN_ALWAYS; PF_WRITE; PF_APPEND] permissions])
  /\ (In (CallWrite content (str_size content)) (snd result)
      <-> (open_isValid w = true /\ platformChmod w = true)).
Proof.
  intros Hret Hsize result. unfold result, writeTextFile.
  pose proof (str_size_nonneg content) as Hnonneg.
  destruct (open_isValid w); cbn [negb].
  - destruct (platformChmod w); cbn [negb].
    + assert (Hcast : to_size_t (write_returns w) = str_size content
                      <-> write_returns w = str_size content).
      { unfold to_size_t, size_t_modulus.
        destruct (Z.le_gt_cases 0 (write_returns w)) as [Hpos|Hneg].
        - rewrite Z.mod_small by lia. reflexivity.
        - replace (write_returns w)
            with ((write_returns w + 2 ^ 64) + (-1) * 2 ^ 64) at 1 by lia.
          rewrite Z.mod_add by lia. rewrite Z.mod_small by lia. lia. }
      destruct (to_size_t (write_returns w) =? str_size content) eqn:E;
        cbn [negb fst snd].
      * apply Z.eqb_eq in E. apply Hcast in E.
        split; [split; [intros _; repeat split; exact E|reflexivity]|].
        split; [discriminate|].
        split; [intros _; now split|intros _; cbn; auto].
      * apply Z.eqb_neq in E.
        split; [split; [discriminate|]|].
        { intros (_ & _ & H). exfalso. apply E. now apply Hcast. }
        split; [discriminate|].
        split; [intros _; now split|intros _; cbn; auto].
    + cbn [fst snd].
      split; [split; [discriminate|intros (_ & H & _); discriminate H]|].
      split; [discriminate|].
      split; [intros [H|[H|[]]]; discriminate H|intros [_ H]; discriminate H].
  - cbn [fst snd].
    split; [split; [discriminate|intros (H & _); discriminate H]|].
    split; [reflexivity|].
    split; [intros [H|[]]; discriminate H|intros [H _]; discriminate H].
Qed.

Lemma write_reports_short_writes_witness :
  ok (fst (writeTextFile (mkWriteAnswers true true (-1))
             "/var/osquery/osquery.conf" "{}" 384 false))
  = false.
Proof.
  destruct (write_reports_short_writes (mkWriteAnswers true true (-1))
              "/var/osquery/osquery.conf" "{}" 384 false) as [Hiff _].
  - vm_compute. split; [discriminate|reflexivity].
  - reflexivity.
  - destruct (ok (fst (writeTextFile (mkWriteAnswers true true (-1))
                         "/var/osquery/osquery.conf" "{}" 384 false)))
      eqn:E; [|reflexivity].
    destruct (proj1 Hiff eq_refl) as (_ & _ & H). discriminate H.
Defined.

(* ================================================================== *)
(** * Bounded reader: a short single read *)
(* ================================================================== *)

(** X30. The single read of a known size does not look at how much was
    read: when a special file read with a size hint supplies fewer bytes
    than the hint, the call still reports success and the content is
    those bytes followed by NUL bytes up to the hinted size. *)
Theorem short_read_is_padded (flags : Flags) (fs : Filesystem)
    (path : string) (content : list byte) (size : Z)
    (preserve_time blocking : bool) (f : PlatformFile) (c : list byte)
    (rest : list ReadEvent) :
  OpenReadableFile fs path blocking = Some f ->
  isValid f = true ->
  isSpecialFile f = true ->
  0 < size < 2 ^ 63 ->
  size <= effective_read_max flags f ->
  fd_pending f = Chunk c :: rest ->
  nbytes c < size ->
  exists r,
    readFile_content flags fs path content size false preserve_time blocking
    = Some (r, (content ++ c
                ++ repeat x00 (Z.to_nat size - List.length c))%list)
    /\ rr_outcome r = Returns (mkStatus 0 "OK").
Proof.
  intros Hopen Hvalid Hspecial Hsize Hmax Hp Hshort.
  assert (Hdet : determined_size f size = size).
  { unfold determined_size. rewrite Hspecial.
    replace (size >? 0) with true by (symmetry; apply Z.gtb_lt; lia).
    cbn [andb]. apply to_off_t_small. lia. }
  unfold readFile_content.
  rewrite (readFile_single_shot flags fs path size 4096 preserve_time
             blocking f Hopen Hvalid) by (rewrite Hdet; lia).
  rewrite Hdet.
  destruct (fd_read_whole f size c rest Hp) as (f' & Hread & _); [lia|].
  rewrite Hread. cbn [fst snd]. unfold finish_read.
  cbn [rr_sink rr_outcome fold_left append_content].
  assert (Hlen : nbytes (filled size c) = size).
  { unfold filled, nbytes in *. rewrite length_app, repeat_length. lia. }
  rewrite Hlen, Z.eqb_refl. eexists. split; reflexivity.
Qed.

Lemma short_read_is_padded_witness :
  let flags := mkFlags 8 8 false true in
  let pipe := sample_file 0 true false [Chunk [x61; x62]] in
  exists r,
    readFile_content flags (sample_fs [] canon_same no_glob pipe)
      "/run/pipe" [] 4 false false false
    = Some (r, [x61; x62; x00; x00])
    /\ rr_outcome r = Returns (mkStatus 0 "OK").
Proof.
  cbv zeta.
  apply (short_read_is_padded (mkFlags 8 8 false true)
           (sample_fs [] canon_same no_glob
              (sample_file 0 true false [Chunk [x61; x62]]))
           "/run/pipe" [] 4 false false
           (sample_file 0 true false [Chunk [x61; x62]])
           [x61; x62] []).
  - reflexivity.
  - reflexivity.
  - reflexivity.
  - lia.
  - vm_compute. discriminate.
  - reflexivity.
  - reflexivity.
Defined.
